(** * Password_Policy_Checker.py: a shallow embedding and its properties

    The module keeps one record, [user_password_data], with the time of the
    last password change and a bounded history of SHA-256 fingerprints, and
    offers four operations on it: [update_password_data],
    [is_password_reused], [is_password_expired] and
    [check_password_strength].

    Python values are modelled as follows.
    - A [str] is the list of its Unicode code points (numbers in [N]).
    - A [bytes] object is the list of its bytes (numbers below 256 in [N]).
    - The float returned by [time.time()] is a binary64 [float]; every
      operation that reads the clock takes the reading as an argument.
    - The module-level dict is a record; the operations run in a state and
      exception monad over that record. *)

From Stdlib Require Import String Ascii.
From Stdlib Require Import NArith ZArith Bool Arith Lia Uint63 Floats.
From Stdlib Require QArith.
Import QArith_base.
From Stdlib Require Import List Permutation.
Import ListNotations.

Local Open Scope N_scope.

(** ** Python strings *)

Definition codepoint := N.
Definition str := list codepoint.
Definition bytes := list N.

(** An ASCII literal of the source, as a [str]. *)
Definition lit (s : string) : str := map N_of_ascii (list_ascii_of_string s).

Definition str_eqb (a b : str) : bool :=
  if list_eq_dec N.eq_dec a b then true else false.

(** ** The part of [re] the module uses

    Every pattern of the module is a single character class, so [re.search]
    scans the string for the first character of the class. *)

(** The Unicode database behind [\d]: in a [str] pattern, [\d] matches every
    character of category Nd, which includes the ASCII digits. The table
    itself belongs to the interpreter's Unicode version. *)
Class UnicodeData := {
  Nd : codepoint -> bool;
  Nd_ascii : forall c, 48 <= c <= 57 -> Nd c = true
}.

Inductive pattern :=
| CharRange (lo hi : codepoint)   (* [lo-hi] *)
| CharSet (cs : list codepoint)   (* [...] of literal characters *)
| DecimalDigit.                   (* \d *)

Section Regex.
Context {ucd : UnicodeData}.

Definition class_matches (pat : pattern) (c : codepoint) : bool :=
  match pat with
  | CharRange lo hi => (lo <=? c) && (c <=? hi)
  | CharSet cs => existsb (N.eqb c) cs
  | DecimalDigit => Nd c
  end.

(** [re.search pat s]: the position of the leftmost match, or [None]. *)
Fixpoint re_search_from (pat : pattern) (s : str) (pos : nat) : option nat :=
  match s with
  | [] => None
  | c :: rest =>
      if class_matches pat c then Some pos
      else re_search_from pat rest (S pos)
  end.

Definition re_search (pat : pattern) (s : str) : option nat :=
  re_search_from pat s 0.

(** Truth value of a [re.search] result: a match object is true, [None] is
    false. *)
Definition truthy (m : option nat) : bool :=
  match m with Some _ => true | None => false end.

End Regex.

(** The four patterns of [check_password_strength]. *)
Definition pat_upper : pattern := CharRange 65 90.     (* r'[A-Z]' *)
Definition pat_lower : pattern := CharRange 97 122.    (* r'[a-z]' *)
Definition pat_digit : pattern := DecimalDigit.        (* r'\d' *)
(** The fourth pattern is the class of the twenty characters below and the
    double quote, which the source writes escaped; it is code point 34. *)
Definition special_characters : list codepoint :=
  (lit "!@#$%^&*(),.?" ++ [34] ++ lit ":{}|<>")%list.
Definition pat_special : pattern := CharSet special_characters.

Definition msg_length : str :=
  lit "Password must be at least 14 characters long.".
Definition msg_upper : str :=
  lit "Password must contain at least one uppercase letter.".
Definition msg_lower : str :=
  lit "Password must contain at least one lowercase letter.".
Definition msg_digit : str :=
  lit "Password must contain at least one digit.".
Definition msg_special : str :=
  lit "Password must contain at least one special character.".

(** ** [str.encode()]: UTF-8

    Encoding fails with [UnicodeEncodeError] on a surrogate code point
    (U+D800 to U+DFFF), which a Python string may hold. Numbers above
    U+10FFFF are not characters; the encoder rejects them as well. *)

Definition is_surrogate (c : codepoint) : bool := (0xD800 <=? c) && (c <=? 0xDFFF).

Definition is_scalar_value (c : codepoint) : bool :=
  (c <=? 0x10FFFF) && negb (is_surrogate c).

Definition continuation (x : N) : N := N.lor 0x80 (N.land x 0x3F).

Definition utf8_char (c : codepoint) : option bytes :=
  if c <? 0x80 then Some [c]
  else if c <? 0x800 then
    Some [N.lor 0xC0 (N.shiftr c 6); continuation c]
  else if c <? 0x10000 then
    if is_surrogate c then None
    else Some [N.lor 0xE0 (N.shiftr c 12); continuation (N.shiftr c 6);
               continuation c]
  else if c <=? 0x10FFFF then
    Some [N.lor 0xF0 (N.shiftr c 18); continuation (N.shiftr c 12);
          continuation (N.shiftr c 6); continuation c]
  else None.

Fixpoint str_encode (s : str) : option bytes :=
  match s with
  | [] => Some []
  | c :: rest =>
      match utf8_char c, str_encode rest with
      | Some b, Some bs => Some (b ++ bs)%list
      | _, _ => None
      end
  end.

(** The strings UTF-8 can encode: no surrogate among their code points. *)
Definition encodable (p : str) : Prop :=
  Forall (fun c => is_scalar_value c = true) p.

(** ** [hashlib.sha256] (FIPS 180-4) on 32-bit words in [N] *)

Module hashlib.

Definition mask32 : N := 0xFFFFFFFF.
Definition w32 (x : N) : N := N.land x mask32.
Definition add32 (x y : N) : N := w32 (x + y).
Definition rotr (n x : N) : N :=
  w32 (N.lor (N.shiftr x n) (N.shiftl x (32 - n))).
Definition xor3 (x y z : N) : N := N.lxor (N.lxor x y) z.

Definition Ch (x y z : N) : N :=
  N.lxor (N.land x y) (N.land (N.lxor x mask32) z).
Definition Maj (x y z : N) : N :=
  xor3 (N.land x y) (N.land x z) (N.land y z).
Definition Sum0 (x : N) : N := xor3 (rotr 2 x) (rotr 13 x) (rotr 22 x).
Definition Sum1 (x : N) : N := xor3 (rotr 6 x) (rotr 11 x) (rotr 25 x).
Definition sig0 (x : N) : N := xor3 (rotr 7 x) (rotr 18 x) (N.shiftr x 3).
Definition sig1 (x : N) : N := xor3 (rotr 17 x) (rotr 19 x) (N.shiftr x 10).

(** The constants are the first 32 bits of the fractional parts of the
    square roots (initial hash value) and cube roots (round constants) of
    the first primes. *)
Definition is_prime (n : N) : bool :=
  (1 <? n) &&
  forallb (fun d => negb (n mod d =? 0))
          (map N.of_nat (seq 2 (N.to_nat n - 2))).

Definition primes64 : list N :=
  Eval vm_compute in firstn 64 (filter is_prime (map N.of_nat (seq 2 310))).

Fixpoint icbrt_bits (k : nat) (n r : N) : N :=
  match k with
  | O => r
  | S k' =>
      let r' := r + N.shiftl 1 (N.of_nat k') in
      icbrt_bits k' n (if r' * r' * r' <=? n then r' else r)
  end.

(** Integer cube root, for arguments below 2^120. *)
Definition icbrt (n : N) : N := icbrt_bits 40 n 0.

Definition K : list N :=
  Eval vm_compute in map (fun p => w32 (icbrt (p * 2 ^ 96))) primes64.

Definition H0 : list N :=
  Eval vm_compute in map (fun p => w32 (N.sqrt (p * 2 ^ 64))) (firstn 8 primes64).

(** Big-endian bytes of [x], [n] of them. *)
Fixpoint be_bytes (n : nat) (x : N) : bytes :=
  match n with
  | O => []
  | S n' => N.land (N.shiftr x (8 * N.of_nat n')) 0xFF :: be_bytes n' x
  end.

Definition pad (m : bytes) : bytes :=
  let l := N.of_nat (length m) in
  (m ++ [0x80] ++ repeat 0 (N.to_nat ((119 - l mod 64) mod 64))
     ++ be_bytes 8 (8 * l))%list.

Fixpoint be_words (bs : bytes) : list N :=
  match bs with
  | a :: b :: c :: d :: rest =>
      N.lor (N.shiftl a 24) (N.lor (N.shiftl b 16) (N.lor (N.shiftl c 8) d))
        :: be_words rest
  | _ => []
  end.

Fixpoint blocks (fuel : nat) (ws : list N) : list (list N) :=
  match fuel, ws with
  | S fuel', _ :: _ => firstn 16 ws :: blocks fuel' (skipn 16 ws)
  | _, _ => []
  end.

(** The message schedule, most recent word first. *)
Fixpoint schedule (n : nat) (rw : list N) : list N :=
  match n with
  | O => rw
  | S n' =>
      let w := add32 (add32 (sig1 (nth 1 rw 0)) (nth 6 rw 0))
                     (add32 (sig0 (nth 14 rw 0)) (nth 15 rw 0)) in
      schedule n' (w :: rw)
  end.

Record regs := Regs { ra : N; rb : N; rc : N; rd : N;
                      re : N; rf : N; rg : N; rh : N }.

Definition round (r : regs) (kw : N * N) : regs :=
  let t1 := add32 (add32 (add32 (rh r) (Sum1 (re r)))
                         (add32 (Ch (re r) (rf r) (rg r)) (fst kw))) (snd kw) in
  let t2 := add32 (Sum0 (ra r)) (Maj (ra r) (rb r) (rc r)) in
  Regs (add32 t1 t2) (ra r) (rb r) (rc r) (add32 (rd r) t1) (re r) (rf r) (rg r).

Definition regs_of (h : list N) : regs :=
  Regs (nth 0 h 0) (nth 1 h 0) (nth 2 h 0) (nth 3 h 0)
       (nth 4 h 0) (nth 5 h 0) (nth 6 h 0) (nth 7 h 0).

Definition regs_list (r : regs) : list N :=
  [ra r; rb r; rc r; rd r; re r; rf r; rg r; rh r].

Definition compress (h : list N) (block : list N) : list N :=
  let w := rev (schedule 48 (rev block)) in
  let r := fold_left round (combine K w) (regs_of h) in
  map (fun p => add32 (fst p) (snd p)) (combine h (regs_list r)).

(** [hashlib.sha256(m).digest()] *)
Definition sha256 (m : bytes) : bytes :=
  let ws := be_words (pad m) in
  flat_map (be_bytes 4) (fold_left compress (blocks (length ws) ws) H0).

Definition hex_digit (d : N) : codepoint :=
  if d <? 10 then 48 + d else 87 + d.

(** [.hexdigest()]: two lower-case hexadecimal digits per byte. *)
Definition hexdigest (digest : bytes) : str :=
  flat_map (fun b => [hex_digit (N.shiftr b 4); hex_digit (N.land b 0xF)]) digest.

End hashlib.

(** ** Outcomes: a call returns a value or raises *)

Inductive exn := UnicodeEncodeError.

Inductive outcome (A : Type) :=
| Return (a : A)
| Raise (e : exn).
Arguments Return {A} a.
Arguments Raise {A} e.

(** ** Constants of the module *)

Definition PASSWORD_EXPIRATION_DAYS : Z := 90.
Definition PASSWORD_HISTORY_LIMIT : nat := 24.

(** ** [hash_password] *)

Definition hash_password (password : str) : outcome str :=
  match str_encode password with
  | Some data => Return (hashlib.hexdigest (hashlib.sha256 data))
  | None => Raise UnicodeEncodeError
  end.

(** ** [collections.deque] with [maxlen]

    A deque is the list of its items, oldest first. [append] adds on the
    right and, when the deque has grown beyond [maxlen], drops one item on
    the left. *)

Module deque.

Definition t := list str.

Definition new : t := [].

Definition append (maxlen : nat) (d : t) (x : str) : t :=
  let d' := (d ++ [x])%list in
  if (maxlen <? length d')%nat then tl d' else d'.

(** [x in d] *)
Definition contains (x : str) (d : t) : bool := existsb (str_eqb x) d.

End deque.

(** ** The password record and the monad of the operations *)

Record password_data := {
  last_password_changed : option float;
  password_history : deque.t      (* deque(maxlen=PASSWORD_HISTORY_LIMIT) *)
}.

(** The record as the module creates it. *)
Definition user_password_data : password_data :=
  {| last_password_changed := None; password_history := deque.new |}.

(** A computation reads and writes the record and returns or raises; the
    record survives an exception as it was when the exception was raised. *)
Definition Py (A : Type) : Type := password_data -> outcome A * password_data.

Definition ret {A} (a : A) : Py A := fun s => (Return a, s).

Definition bind {A B} (c : Py A) (k : A -> Py B) : Py B :=
  fun s =>
    match c s with
    | (Return a, s') => k a s'
    | (Raise e, s') => (Raise e, s')
    end.

Definition lift {A} (o : outcome A) : Py A := fun s => (o, s).

Definition get : Py password_data := fun s => (Return s, s).

Definition put (s : password_data) : Py unit := fun _ => (Return tt, s).

Declare Scope py_scope.
Delimit Scope py_scope with py.
Notation "x <- c ;; k" := (bind c (fun x => k))
  (at level 61, c at next level, right associativity) : py_scope.
Notation "c ;; k" := (bind c (fun _ => k))
  (at level 61, right associativity) : py_scope.

Local Open Scope py_scope.

Definition set_last_password_changed (t : float) : Py unit :=
  s <- get ;;
  put {| last_password_changed := Some t;
         password_history := password_history s |}.

Definition history_append (x : str) : Py unit :=
  s <- get ;;
  put {| last_password_changed := last_password_changed s;
         password_history :=
           deque.append PASSWORD_HISTORY_LIMIT (password_history s) x |}.

(** ** The operations

    [current_time] is the value [time.time()] returns inside the call. *)

Definition update_password_data (current_time : float) (new_password : str)
  : Py bool :=
  set_last_password_changed current_time ;;
  hashed <- lift (hash_password new_password) ;;
  history_append hashed ;;
  ret true.

Definition is_password_reused (new_password : str) : Py bool :=
  hashed <- lift (hash_password new_password) ;;
  s <- get ;;
  ret (deque.contains hashed (password_history s)).

(** A Python int as a float, as [/] and [>] convert it; the module's ints
    (90 and 24 * 3600) are small and the conversion is exact. *)
Definition float_of_int (z : Z) : float := PrimFloat.of_uint63 (Uint63.of_Z z).

Definition days_since_change (current_time last : float) : float :=
  ((current_time - last) / float_of_int (24 * 3600))%float.

Definition is_password_expired (current_time : float) : Py bool :=
  s <- get ;;
  match last_password_changed s with
  | None => ret true
  | Some last =>
      ret (float_of_int PASSWORD_EXPIRATION_DAYS
             <? days_since_change current_time last)%float
  end.

Section Strength.
Context {ucd : UnicodeData}.

Definition check_password_strength (password : str) : Py (bool * list str) :=
  let issues : list str := [] in
  let issues :=
    if (length password <? 14)%nat then (issues ++ [msg_length])%list
    else issues in
  let issues :=
    if negb (truthy (re_search pat_upper password))
    then (issues ++ [msg_upper])%list else issues in
  let issues :=
    if negb (truthy (re_search pat_lower password))
    then (issues ++ [msg_lower])%list else issues in
  let issues :=
    if negb (truthy (re_search pat_digit password))
    then (issues ++ [msg_digit])%list else issues in
  let issues :=
    if negb (truthy (re_search pat_special password))
    then (issues ++ [msg_special])%list else issues in
  let is_strong := (length issues =? 0)%nat in
  ret (is_strong, issues).

End Strength.

(** ** A caller recording several changes

    Each change is a clock reading and a password; the calls are made one
    after the other on the same record (a call that raises leaves the record
    as it was at the raise, and the caller goes on). *)

Fixpoint record_changes (changes : list (float * str)) (s : password_data)
  : password_data :=
  match changes with
  | [] => s
  | (t, p) :: rest => record_changes rest (snd (update_password_data t p s))
  end.

(** The fingerprints a list of passwords leaves behind, oldest first: the
    passwords that cannot be encoded leave none. *)
Fixpoint fingerprints (ps : list str) : list str :=
  match ps with
  | [] => []
  | p :: rest =>
      match hash_password p with
      | Return h => h :: fingerprints rest
      | Raise _ => fingerprints rest
      end
  end.

(** ** The policy in the words of the specification *)

Inductive rule := Length | Uppercase | Lowercase | Digit | Special.

Definition all_rules : list rule :=
  [Length; Uppercase; Lowercase; Digit; Special].

Definition rule_message (r : rule) : str :=
  match r with
  | Length => msg_length
  | Uppercase => msg_upper
  | Lowercase => msg_lower
  | Digit => msg_digit
  | Special => msg_special
  end.

Section Policy.
Context {ucd : UnicodeData}.

Definition contains_uppercase (p : str) : Prop :=
  exists c, In c p /\ 65 <= c <= 90.          (* 'A' .. 'Z' *)

Definition contains_lowercase (p : str) : Prop :=
  exists c, In c p /\ 97 <= c <= 122.         (* 'a' .. 'z' *)

Definition contains_digit (p : str) : Prop :=
  exists c, In c p /\ Nd c = true.

Definition contains_special (p : str) : Prop :=
  exists c, In c p /\ In c special_characters.

Definition satisfies (p : str) (r : rule) : bool :=
  match r with
  | Length => (14 <=? length p)%nat
  | Uppercase => existsb (fun c => (65 <=? c) && (c <=? 90)) p
  | Lowercase => existsb (fun c => (97 <=? c) && (c <=? 122)) p
  | Digit => existsb Nd p
  | Special => existsb (fun c => existsb (N.eqb c) special_characters) p
  end.

(** The issues the specification asks for: the messages of the failed rules,
    in the order of [all_rules]. *)
Definition expected_issues (p : str) : list str :=
  map rule_message (filter (fun r => negb (satisfies p r)) all_rules).

(** The records the operations can produce from the initial one. *)
Inductive reachable : password_data -> Prop :=
| reach_initial : reachable user_password_data
| reach_update t p s :
    reachable s -> reachable (snd (update_password_data t p s))
| reach_reused p s :
    reachable s -> reachable (snd (is_password_reused p s))
| reach_expired t s :
    reachable s -> reachable (snd (is_password_expired t s))
| reach_strength p s :
    reachable s -> reachable (snd (check_password_strength p s)).

End Policy.

(** ** A fragment of the Unicode table, to run examples

    The ASCII digits, the Arabic-Indic digits (U+0660 to U+0669) and the
    fullwidth digits (U+FF10 to U+FF19). *)

Definition sample_Nd (c : codepoint) : bool :=
  ((48 <=? c) && (c <=? 57)) || ((0x660 <=? c) && (c <=? 0x669))
  || ((0xFF10 <=? c) && (c <=? 0xFF19)).

Lemma sample_Nd_ascii : forall c, 48 <= c <= 57 -> sample_Nd c = true.
Proof.
  intros c [Hlo Hhi]. unfold sample_Nd.
  apply N.leb_le in Hlo. apply N.leb_le in Hhi.
  now rewrite Hlo, Hhi.
Qed.

Definition sample_unicode : UnicodeData :=
  {| Nd := sample_Nd; Nd_ascii := sample_Nd_ascii |}.

(** The last [k] items of a list. *)
Definition lastn {A} (k : nat) (l : list A) : list A :=
  skipn (length l - k) l.

(** ** Sample data for the examples

    Twenty-five passwords, [Correct-Horse-01] to [Correct-Horse-25], each
    recorded at its own clock reading. *)

Definition numbered_password (i : nat) : str :=
  (lit "Correct-Horse-"
     ++ [48 + N.of_nat (i / 10); 48 + N.of_nat (i mod 10)])%list.

Definition sample_clock (i : nat) : float :=
  float_of_int (1700000000 + 60 * Z.of_nat i).

Definition sample_changes : list (float * str) :=
  map (fun i => (sample_clock i, numbered_password i)) (seq 1 25).

(** Letters in the wider sense of Unicode, within Latin-1: the characters
    below U+0100 for which [str.isupper], respectively [str.islower],
    holds. The accented capitals and small letters are among them. *)
Definition latin1_uppercase (c : codepoint) : Prop :=
  65 <= c <= 90 \/ 0xC0 <= c <= 0xD6 \/ 0xD8 <= c <= 0xDE.

Definition latin1_lowercase (c : codepoint) : Prop :=
  97 <= c <= 122 \/ c = 0xAA \/ c = 0xB5 \/ c = 0xBA \/
  0xDF <= c <= 0xF6 \/ 0xF8 <= c <= 0xFF.

(** A password of sixteen characters whose only capital is U+00C9, E with
    acute accent. *)
Definition accented_password : str := (0xC9 :: lit "trongpassw0rd!!")%list.

(** A string that is a lone surrogate, U+D800: Python accepts it as a
    [str], and UTF-8 cannot encode it. *)
Definition lone_surrogate : str := [0xD800].

(** The same twenty-five changes with the first password replaced by the
    lone surrogate. *)
Definition surrogate_changes : list (float * str) :=
  (sample_clock 1, lone_surrogate) :: tl sample_changes.

(** ** Standard output and the demonstration

    A script computation also prints: what has been printed so far, one
    entry per [print] call and oldest first, travels with the record and
    survives an exception like the record does.

    [print] encodes its text for the stream behind [sys.stdout] and raises
    [UnicodeEncodeError] when the stream cannot encode it, before anything
    of the text is written. Which texts a stream accepts depends on its
    encoding and error handler; every stream accepts ASCII text. *)

Class Console := {
  console_accepts : str -> bool;
  console_accepts_ascii :
    forall text, Forall (fun c => c < 128) text -> console_accepts text = true
}.

Definition stdout := list str.

Definition Script (A : Type) : Type :=
  password_data * stdout -> outcome A * (password_data * stdout).

Definition sret {A} (a : A) : Script A := fun w => (Return a, w).

Definition sbind {A B} (c : Script A) (k : A -> Script B) : Script B :=
  fun w =>
    match c w with
    | (Return a, w') => k a w'
    | (Raise e, w') => (Raise e, w')
    end.

(** A call of one of the operations from the script. *)
Definition call {A} (c : Py A) : Script A :=
  fun w =>
    match c (fst w) with
    | (r, s') => (r, (s', snd w))
    end.

Declare Scope script_scope.
Delimit Scope script_scope with script.
Notation "x <- c ;; k" := (sbind c (fun x => k))
  (at level 61, c at next level, right associativity) : script_scope.
Notation "c ;; k" := (sbind c (fun _ => k))
  (at level 61, right associativity) : script_scope.

Section Printing.
Context {console : Console}.

Definition print (text : str) : Script unit :=
  fun w =>
    if console_accepts text
    then (Return tt, (fst w, (snd w ++ [text])%list))
    else (Raise UnicodeEncodeError, w).

Definition create_banner (message : str) : Script unit :=
  (let border := repeat 42 (length message + 4) in   (* '*' * (len + 4) *)
   print border ;;
   print (lit "* " ++ message ++ lit " *")%list ;;
   print border)%script.

(** [for issue in issues: print(...)] *)
Fixpoint print_issues (issues : list str) : Script unit :=
  match issues with
  | [] => sret tt
  | issue :: rest =>
      (print (lit "- " ++ issue)%list ;; print_issues rest)%script
  end.

End Printing.

Definition banner_strong : str := lit "Password is strong.".
Definition banner_weak : str := lit "Password is weak. Issues:".
Definition banner_reused : str :=
  lit "Password has been used before. Choose a different one.".
Definition banner_updated : str := lit "Password updated successfully.".
Definition banner_expired : str :=
  lit "Password has expired. Please change your password.".
Definition banner_valid : str := lit "Password is still valid.".

Section Demonstration.
Context {ucd : UnicodeData} {console : Console}.

(** The block under [if __name__ == "__main__"], for a value of its variable
    [test_password]; [t_update] and [t_expired] are the clock readings inside
    [update_password_data] and [is_password_expired]. *)
Definition main_body (test_password : str) (t_update t_expired : float)
  : Script unit :=
  (r <- call (check_password_strength test_password) ;;
   (if fst r then create_banner banner_strong
    else create_banner banner_weak ;; print_issues (snd r)) ;;
   reused <- call (is_password_reused test_password) ;;
   (if reused : bool then create_banner banner_reused
    else call (update_password_data t_update test_password) ;;
         create_banner banner_updated) ;;
   expired <- call (is_password_expired t_expired) ;;
   if expired : bool then create_banner banner_expired
   else create_banner banner_valid)%script.

(** The script as the source runs it. *)
Definition main : float -> float -> Script unit :=
  main_body (lit "StrongPassw0rd!").

End Demonstration.

(** ** What the script prints, for the statements below *)

(** The characters of a hexadecimal digest. *)
Definition is_hex_char (c : codepoint) : Prop :=
  48 <= c <= 57 \/ 97 <= c <= 102.       (* '0'..'9' or 'a'..'f' *)

(** Texts every stream accepts. *)
Definition ascii_text (text : str) : Prop := Forall (fun c => c < 128) text.

(** The three texts a banner prints. *)
Definition banner_lines (message : str) : list str :=
  let border := repeat 42 (length message + 4) in
  [border; lit "* " ++ message ++ lit " *"; border].

Section Reports.
Context {ucd : UnicodeData}.

(** What the script prints about the strength of a password. *)
Definition strength_report (p : str) : list str :=
  if forallb (satisfies p) all_rules then banner_lines banner_strong
  else banner_lines banner_weak ++ map (app (lit "- ")) (expected_issues p).

End Reports.

(** What the script prints about the expiration. *)
Definition expiry_report (expired : bool) : list str :=
  banner_lines (if expired then banner_expired else banner_valid).

(** A stream with the UTF-8 encoding and the strict error handler, the
    default of [sys.stdout]: it accepts the strings UTF-8 can encode. *)
Definition utf8_accepts (text : str) : bool := forallb is_scalar_value text.

Lemma utf8_accepts_ascii :
  forall text, Forall (fun c => c < 128) text -> utf8_accepts text = true.
Proof.
  intros text H. apply forallb_forall. intros c Hc.
  pose proof (proj1 (Forall_forall _ _) H c Hc) as Hlt. cbv beta in Hlt.
  unfold is_scalar_value, is_surrogate.
  apply andb_true_iff. split.
  - apply N.leb_le. lia.
  - apply negb_true_iff, andb_false_iff. left. apply N.leb_gt. lia.
Qed.

Definition utf8_console : Console :=
  {| console_accepts := utf8_accepts;
     console_accepts_ascii := utf8_accepts_ascii |}.

(** ** Hexadecimal strings, to count fingerprints *)

(** The sixteen characters of a hexadecimal digest. *)
Definition hex_chars : list codepoint := lit "0123456789abcdef".

(** All strings of [n] hexadecimal characters. *)
Fixpoint hex_words (n : nat) : list str :=
  match n with
  | O => [[]]
  | S n' => flat_map (fun c => map (cons c) (hex_words n')) hex_chars
  end.

(** The fingerprint of a password, or the empty string when
    [hash_password] raises. *)
Definition fingerprint_of (p : str) : str :=
  match hash_password p with
  | Return h => h
  | Raise _ => []
  end.


(** ** Binary64 values, for the statements about the clock *)

(** Whether a rounding location says that digits were lost. *)
Definition inexact (l : location) : bool :=
  match l with loc_Exact => false | loc_Inexact _ => true end.

(** The constants of the expiration test, as binary64 values. *)
Definition M90 : positive := 6333186975989760.      (* 90 * 2^46 *)
Definition M86400 : positive := 5937362789990400.   (* 86400 * 2^36 *)
Definition M7776000 : positive := 8349416423424000. (* 7776000 * 2^30 *)
Definition SF90 : spec_float := S754_finite false M90 (-46)%Z.
Definition SF86400 : spec_float := S754_finite false M86400 (-36)%Z.
Definition SF7776000 : spec_float := S754_finite false M7776000 (-30)%Z.

(** The number a binary64 value stands for, exactly. *)
Definition SF2Q (x : spec_float) : option Q :=
  match x with
  | S754_zero _ => Some (inject_Z 0)
  | S754_finite s m e =>
      Some (Qmult (inject_Z (if s then Z.neg m else Z.pos m))
                  (Qpower (inject_Z 2) e))
  | _ => None
  end.

Definition exact_seconds (t : float) : option Q := SF2Q (Prim2SF t).

(** Two clock readings whose difference is not a binary64 value: one second
    after the epoch less 2^-53, and 7776001 seconds after it. *)
Definition rounding_last : float := 0x1.fffffffffffffp-1%float.
Definition rounding_now : float := 7776001%float.

(** A record that already holds one fingerprint. *)
Definition used_record : password_data :=
  snd (update_password_data (sample_clock 0) (numbered_password 0)
         user_password_data).

(** * Properties *)

(** ** Test vectors of [hashlib.sha256] and [hash_password] *)

Example sha256_empty :
  hashlib.hexdigest (hashlib.sha256 []) =
  lit "e3b0c44298fc1c149afbf4c8996fb92427ae41e4649b934ca495991b7852b855".
Proof. vm_compute. reflexivity. Qed.

Example sha256_abc :
  hashlib.hexdigest (hashlib.sha256 (lit "abc")) =
  lit "ba7816bf8f01cfea414140de5dae2223b00361a396177a9cb410ff61f20015ad".
Proof. vm_compute. reflexivity. Qed.

Example sha256_two_blocks :
  hashlib.hexdigest (hashlib.sha256 (repeat 97 100)) =
  lit "2816597888e4a0d3a36b82b83316ab32680eb8f00f8cd3b904d681246d285a0e".
Proof. vm_compute. reflexivity. Qed.

Example sha256_pad_boundary :
  hashlib.hexdigest (hashlib.sha256 (repeat 120 56)) =
  lit "04c26261370ee7541549d16dee320c723e3fd14671e66a099afe0a377c16888e".
Proof. vm_compute. reflexivity. Qed.

Example hash_password_demo :
  hash_password (lit "StrongPassw0rd!") =
  Return (lit "613264468d337ec48cdc4344d1cc0eb32cf8f1c92b288488a33c8226cee6052d").
Proof. vm_compute. reflexivity. Qed.

(** U+00E9, U+20AC, U+1F600: two, three and four bytes of UTF-8. *)
Example hash_password_non_ascii :
  hash_password [233; 8364; 128512] =
  Return (lit "df9226927fd572c1ee66eec85de1bb139497614899f36e4e90474cb71f6ef9d0").
Proof. vm_compute. reflexivity. Qed.

Example hash_password_surrogate :
  hash_password [0xD800] = Raise UnicodeEncodeError.
Proof. reflexivity. Qed.

(** ** The strength checker *)

Section StrengthFacts.
Context {ucd : UnicodeData}.

Lemma truthy_re_search_from pat s pos :
  truthy (re_search_from pat s pos) = existsb (class_matches pat) s.
Proof.
  revert pos. induction s as [|c rest IH]; intro pos; simpl.
  - reflexivity.
  - destruct (class_matches pat c); simpl; [reflexivity | apply IH].
Qed.

Lemma truthy_re_search pat s :
  truthy (re_search pat s) = existsb (class_matches pat) s.
Proof. apply truthy_re_search_from. Qed.

Lemma rule_message_injective r1 r2 :
  rule_message r1 = rule_message r2 -> r1 = r2.
Proof.
  destruct r1, r2; intro H; try reflexivity; vm_compute in H; discriminate H.
Qed.

(** Case analysis on which of the five rules a password satisfies. *)
Ltac rule_cases p :=
  destruct (satisfies p Length), (satisfies p Uppercase),
    (satisfies p Lowercase), (satisfies p Digit), (satisfies p Special).

Lemma check_password_strength_eq p s :
  check_password_strength p s =
  (Return (forallb (satisfies p) all_rules, expected_issues p), s).
Proof.
  unfold check_password_strength, ret.
  rewrite !truthy_re_search, Nat.ltb_antisym.
  change (14 <=? length p)%nat with (satisfies p Length).
  change (existsb (class_matches pat_upper) p) with (satisfies p Uppercase).
  change (existsb (class_matches pat_lower) p) with (satisfies p Lowercase).
  change (existsb (class_matches pat_digit) p) with (satisfies p Digit).
  change (existsb (class_matches pat_special) p) with (satisfies p Special).
  unfold expected_issues, all_rules. cbn [filter forallb map].
  rule_cases p; reflexivity.
Qed.

Lemma satisfies_length p :
  satisfies p Length = true <-> (14 <= length p)%nat.
Proof. apply Nat.leb_le. Qed.

Lemma in_range_iff lo hi c :
  (lo <=? c) && (c <=? hi) = true <-> lo <= c <= hi.
Proof. rewrite andb_true_iff, !N.leb_le. reflexivity. Qed.

Lemma satisfies_uppercase p :
  satisfies p Uppercase = true <-> contains_uppercase p.
Proof.
  unfold contains_uppercase. cbn [satisfies]. rewrite existsb_exists.
  split; intros [c [Hin Hc]]; exists c; split; trivial; now apply in_range_iff.
Qed.

Lemma satisfies_lowercase p :
  satisfies p Lowercase = true <-> contains_lowercase p.
Proof.
  unfold contains_lowercase. cbn [satisfies]. rewrite existsb_exists.
  split; intros [c [Hin Hc]]; exists c; split; trivial; now apply in_range_iff.
Qed.

Lemma satisfies_digit p :
  satisfies p Digit = true <-> contains_digit p.
Proof. unfold contains_digit. cbn [satisfies]. apply existsb_exists. Qed.

(** Whatever the Unicode version, an ASCII digit counts as a digit. *)
Lemma ascii_digit_contains_digit p c :
  In c p -> 48 <= c <= 57 -> contains_digit p.
Proof. intros Hin Hc. exists c. split; [exact Hin | now apply Nd_ascii]. Qed.

Lemma satisfies_special p :
  satisfies p Special = true <-> contains_special p.
Proof.
  unfold contains_special. cbn [satisfies]. rewrite existsb_exists.
  split; intros [c [Hin Hc]]; exists c; split; trivial.
  - apply existsb_exists in Hc. destruct Hc as [d [Hd Heq]].
    apply N.eqb_eq in Heq. now subst.
  - apply existsb_exists. exists c. split; [assumption | apply N.eqb_refl].
Qed.

Lemma in_all_rules r : In r all_rules.
Proof. destruct r; simpl; tauto. Qed.

Lemma issue_listed_iff p r :
  In (rule_message r) (expected_issues p) <-> satisfies p r = false.
Proof.
  unfold expected_issues. rewrite in_map_iff. split.
  - intros [r' [Heq Hin]]. apply rule_message_injective in Heq. subst r'.
    apply filter_In in Hin. now apply negb_true_iff.
  - intro H. exists r. split; [reflexivity|].
    apply filter_In. split; [apply in_all_rules | now apply negb_true_iff].
Qed.

Lemma false_iff_not (b : bool) (P : Prop) :
  (b = true <-> P) -> (b = false <-> ~ P).
Proof.
  intros [H1 H2]. destruct b; split; intro H.
  - discriminate H.
  - exfalso. apply H, H1. reflexivity.
  - intro HP. apply H2 in HP. discriminate HP.
  - reflexivity.
Qed.

Lemma strong_iff_no_issue p :
  forallb (satisfies p) all_rules = true <-> expected_issues p = [].
Proof.
  unfold expected_issues, all_rules. cbn [forallb filter].
  rule_cases p; cbn; split; intro H; try reflexivity; discriminate H.
Qed.

Lemma NoDup_map_injective {A B} (f : A -> B) (l : list A) :
  (forall x y, f x = f y -> x = y) -> NoDup l -> NoDup (map f l).
Proof.
  intros Hinj Hnd. induction Hnd as [|x l Hx Hnd IH]; simpl; constructor.
  - intro Hin. apply in_map_iff in Hin. destruct Hin as [y [Heq Hy]].
    apply Hinj in Heq. now subst y.
  - exact IH.
Qed.

Lemma expected_issues_NoDup p : NoDup (expected_issues p).
Proof.
  unfold expected_issues.
  apply NoDup_map_injective.
  - intros r1 r2. apply rule_message_injective.
  - apply NoDup_filter. unfold all_rules.
    repeat constructor; simpl; intuition discriminate.
Qed.

(** C1. For every password, [check_password_strength] returns (it does not
    raise and leaves the record alone) and each of the five rules is judged
    on its own: the length issue is listed exactly when the password has
    fewer than 14 characters, the uppercase issue exactly when no character
    is in A-Z, the lowercase issue exactly when none is in a-z, the digit
    issue exactly when none is a decimal digit, the special-character issue
    exactly when none is in the fixed set; whether one rule fails has no
    influence on the others. [is_strong] is true exactly when the list of
    issues is empty. *)
Theorem check_password_strength_rules_independent p s :
  exists is_strong issues,
    check_password_strength p s = (Return (is_strong, issues), s) /\
    (In msg_length issues <-> (length p < 14)%nat) /\
    (In msg_upper issues <-> ~ contains_uppercase p) /\
    (In msg_lower issues <-> ~ contains_lowercase p) /\
    (In msg_digit issues <-> ~ contains_digit p) /\
    (In msg_special issues <-> ~ contains_special p) /\
    (is_strong = true <-> issues = []).
Proof.
  exists (forallb (satisfies p) all_rules), (expected_issues p).
  split; [apply check_password_strength_eq|].
  split.
  { rewrite (issue_listed_iff p Length). cbn [satisfies].
    rewrite Nat.leb_gt. reflexivity. }
  split.
  { rewrite (issue_listed_iff p Uppercase).
    apply false_iff_not, satisfies_uppercase. }
  split.
  { rewrite (issue_listed_iff p Lowercase).
    apply false_iff_not, satisfies_lowercase. }
  split.
  { rewrite (issue_listed_iff p Digit).
    apply false_iff_not, satisfies_digit. }
  split.
  { rewrite (issue_listed_iff p Special).
    apply false_iff_not, satisfies_special. }
  apply strong_iff_no_issue.
Qed.

(** C2. A password of at least 14 characters with an uppercase letter, a
    lowercase letter, a digit and a character of the fixed special set is
    strong, and its list of issues is empty. *)
Theorem strong_password_has_no_issue p s :
  (14 <= length p)%nat ->
  contains_uppercase p -> contains_lowercase p ->
  contains_digit p -> contains_special p ->
  check_password_strength p s = (Return (true, []), s).
Proof.
  intros Hlen Hu Hl Hd Hs.
  rewrite check_password_strength_eq.
  apply satisfies_length in Hlen. apply satisfies_uppercase in Hu.
  apply satisfies_lowercase in Hl. apply satisfies_digit in Hd.
  apply satisfies_special in Hs.
  unfold expected_issues, all_rules. cbn [forallb filter].
  rewrite Hlen, Hu, Hl, Hd, Hs. reflexivity.
Qed.

(** C3. For a password shorter than 14 characters the list of issues
    contains the length issue, and [is_strong] is false. *)
Theorem short_password_reports_length p s :
  (length p < 14)%nat ->
  exists issues,
    check_password_strength p s = (Return (false, issues), s) /\
    In msg_length issues.
Proof.
  intro Hlen. exists (expected_issues p).
  assert (Hf : satisfies p Length = false) by (now apply Nat.leb_gt).
  split.
  - rewrite check_password_strength_eq. unfold all_rules. cbn [forallb].
    now rewrite Hf.
  - now apply (issue_listed_iff p Length).
Qed.

(** C8. [check_password_strength] is total on strings: for every list of
    code points, well-formed text or not, it returns a pair and raises
    nothing, with at most five issues. The empty string gets all five. *)
Theorem check_password_strength_total :
  (forall p s, exists is_strong issues,
      check_password_strength p s = (Return (is_strong, issues), s) /\
      (length issues <= 5)%nat) /\
  (forall s,
      check_password_strength [] s =
      (Return (false, [msg_length; msg_upper; msg_lower; msg_digit; msg_special]), s)).
Proof.
  split.
  - intros p s. exists (forallb (satisfies p) all_rules), (expected_issues p).
    split; [apply check_password_strength_eq|].
    unfold expected_issues. rewrite length_map.
    apply (Nat.le_trans _ _ _ (filter_length_le _ _)). reflexivity.
  - intro s. reflexivity.
Qed.

(** C10. The issues come in the fixed order length, uppercase, lowercase,
    digit, special character: the list is the list of the five messages in
    that order with the messages of the satisfied rules left out. No message
    occurs twice. *)
Theorem issues_in_fixed_order p s :
  exists is_strong issues,
    check_password_strength p s = (Return (is_strong, issues), s) /\
    issues = map rule_message (filter (fun r => negb (satisfies p r)) all_rules) /\
    NoDup issues.
Proof.
  exists (forallb (satisfies p) all_rules), (expected_issues p).
  split; [apply check_password_strength_eq|].
  split; [reflexivity | apply expected_issues_NoDup].
Qed.

End StrengthFacts.

(** ** The history and the expiration check *)

(** *** Encoding and hashing *)

Lemma utf8_char_some c :
  is_scalar_value c = true <-> exists b, utf8_char c = Some b.
Proof.
  unfold utf8_char, is_scalar_value, is_surrogate.
  destruct (N.ltb_spec c 0x80); [split; [eauto|] |].
  { intros _. apply andb_true_iff. split.
    - apply N.leb_le. lia.
    - apply negb_true_iff, andb_false_iff. left. apply N.leb_gt. lia. }
  destruct (N.ltb_spec c 0x800); [split; [eauto|] |].
  { intros _. apply andb_true_iff. split.
    - apply N.leb_le. lia.
    - apply negb_true_iff, andb_false_iff. left. apply N.leb_gt. lia. }
  destruct (N.ltb_spec c 0x10000).
  { assert (Hle : (c <=? 0x10FFFF) = true) by (apply N.leb_le; lia).
    rewrite Hle. cbn [andb].
    destruct ((0xD800 <=? c) && (c <=? 0xDFFF)); cbn [negb]; split;
      eauto; try discriminate. intros [b Hb]. discriminate Hb. }
  assert (Hs : (0xD800 <=? c) && (c <=? 0xDFFF) = false).
  { apply andb_false_iff. right. apply N.leb_gt. lia. }
  rewrite Hs, andb_true_r. cbn [negb].
  destruct (c <=? 0x10FFFF); split; eauto; try discriminate.
  intros [b Hb]. discriminate Hb.
Qed.

Lemma str_encode_some p :
  encodable p <-> exists data, str_encode p = Some data.
Proof.
  unfold encodable. induction p as [|c rest IH]; simpl.
  - split; [eauto | constructor].
  - split.
    + intro H. inversion H as [|? ? Hc Hrest]; subst.
      apply utf8_char_some in Hc. destruct Hc as [b ->].
      apply IH in Hrest. destruct Hrest as [bs ->]. eauto.
    + intros [data H].
      destruct (utf8_char c) as [b|] eqn:Hc; [|discriminate H].
      destruct (str_encode rest) as [bs|] eqn:Hr; [|discriminate H].
      constructor.
      * apply utf8_char_some. eauto.
      * apply IH. eauto.
Qed.

Lemma hash_password_returns p :
  encodable p -> exists h, hash_password p = Return h.
Proof.
  intro H. apply str_encode_some in H. destruct H as [data H].
  unfold hash_password. rewrite H. eauto.
Qed.

Lemma hash_password_raises p :
  ~ encodable p -> hash_password p = Raise UnicodeEncodeError.
Proof.
  intro H. unfold hash_password.
  destruct (str_encode p) as [data|] eqn:E; [|reflexivity].
  exfalso. apply H, str_encode_some. eauto.
Qed.

(** *** The deque *)

Lemma str_eqb_eq a b : str_eqb a b = true <-> a = b.
Proof.
  unfold str_eqb. destruct (list_eq_dec N.eq_dec a b); split; intro H;
    trivial; try discriminate; contradiction.
Qed.

Lemma contains_In x d : deque.contains x d = true <-> In x d.
Proof.
  unfold deque.contains. rewrite existsb_exists. split.
  - intros [y [Hy Heq]]. apply str_eqb_eq in Heq. now subst.
  - intro H. exists x. split; [assumption | now apply str_eqb_eq].
Qed.


Lemma append_lastn n d x :
  (length d <= n)%nat -> deque.append n d x = lastn n (d ++ [x]).
Proof.
  intro H. unfold deque.append, lastn. rewrite length_app. simpl.
  destruct (Nat.ltb_spec n (length d + 1)).
  - replace (length d + 1 - n)%nat with 1%nat by lia. reflexivity.
  - replace (length d + 1 - n)%nat with 0%nat by lia. reflexivity.
Qed.

Lemma append_below n d x :
  (length d < n)%nat -> deque.append n d x = d ++ [x].
Proof.
  intro H. unfold deque.append. rewrite length_app. simpl.
  destruct (Nat.ltb_spec n (length d + 1)); [lia | reflexivity].
Qed.

Lemma append_full n d x :
  length d = n -> (0 < n)%nat -> deque.append n d x = tl d ++ [x].
Proof.
  intros H Hn. unfold deque.append. rewrite length_app. simpl.
  destruct (Nat.ltb_spec n (length d + 1)); [|lia].
  destruct d; [simpl in H; lia | reflexivity].
Qed.

Lemma append_length n d x :
  (length d <= n)%nat -> (length (deque.append n d x) <= n)%nat.
Proof.
  intro H. unfold deque.append. rewrite length_app. simpl.
  destruct (Nat.ltb_spec n (length d + 1)).
  - destruct d; simpl in *; [lia|]. rewrite length_app. simpl. lia.
  - rewrite length_app. simpl. lia.
Qed.

Lemma append_In n d x : (0 < n)%nat -> In x (deque.append n d x).
Proof.
  intro Hn. unfold deque.append. rewrite length_app. simpl.
  destruct (Nat.ltb_spec n (length d + 1)).
  - destruct d as [|y d]; simpl in *; [lia|].
    apply in_or_app. right. now left.
  - apply in_or_app. right. now left.
Qed.

Lemma lastn_lastn_app {A} k (l r : list A) :
  lastn k (lastn k l ++ r) = lastn k (l ++ r).
Proof.
  unfold lastn.
  destruct (Nat.le_gt_cases (length l) k) as [Hle|Hgt].
  - replace (length l - k)%nat with 0%nat by lia. reflexivity.
  - rewrite length_app, length_skipn.
    replace (length l - (length l - k) + length r - k)%nat
      with (length r) by lia.
    rewrite length_app.
    replace (length l + length r - k)%nat
      with (length r + (length l - k))%nat by lia.
    rewrite <- skipn_skipn.
    f_equal. rewrite skipn_app.
    replace (length l - k - length l)%nat with 0%nat by lia. reflexivity.
Qed.

Lemma lastn_length_le {A} k (l : list A) : (length (lastn k l) <= k)%nat.
Proof. unfold lastn. rewrite length_skipn. lia. Qed.

Lemma lastn_all {A} k (l : list A) : (length l <= k)%nat -> lastn k l = l.
Proof.
  intro H. unfold lastn. replace (length l - k)%nat with 0%nat by lia.
  reflexivity.
Qed.

(** *** The operations, as equations *)

Lemma update_password_data_returns t p s h :
  hash_password p = Return h ->
  update_password_data t p s =
  (Return true,
   {| last_password_changed := Some t;
      password_history :=
        deque.append PASSWORD_HISTORY_LIMIT (password_history s) h |}).
Proof.
  intro H. unfold update_password_data, bind, lift. cbn. rewrite H. reflexivity.
Qed.

Lemma update_password_data_raises t p s e :
  hash_password p = Raise e ->
  update_password_data t p s =
  (Raise e,
   {| last_password_changed := Some t;
      password_history := password_history s |}).
Proof.
  intro H. unfold update_password_data, bind, lift. cbn. rewrite H. reflexivity.
Qed.

Lemma is_password_reused_returns p s h :
  hash_password p = Return h ->
  is_password_reused p s =
  (Return (deque.contains h (password_history s)), s).
Proof.
  intro H. unfold is_password_reused, bind, lift. rewrite H. reflexivity.
Qed.

Lemma is_password_reused_state p s : snd (is_password_reused p s) = s.
Proof.
  unfold is_password_reused, bind, lift.
  destruct (hash_password p); reflexivity.
Qed.

Lemma is_password_expired_state t s : snd (is_password_expired t s) = s.
Proof.
  unfold is_password_expired, bind, get.
  destruct (last_password_changed s); reflexivity.
Qed.

Lemma update_history_length t p s :
  (length (password_history s) <= PASSWORD_HISTORY_LIMIT)%nat ->
  (length (password_history (snd (update_password_data t p s)))
   <= PASSWORD_HISTORY_LIMIT)%nat.
Proof.
  intro H. destruct (hash_password p) as [h|e] eqn:E.
  - rewrite (update_password_data_returns t p s h E).
    cbn [snd password_history]. now apply append_length.
  - rewrite (update_password_data_raises t p s e E). exact H.
Qed.

Lemma record_changes_history changes : forall s,
  (length (password_history s) <= PASSWORD_HISTORY_LIMIT)%nat ->
  password_history (record_changes changes s) =
  lastn PASSWORD_HISTORY_LIMIT
        (password_history s ++ fingerprints (map snd changes)).
Proof.
  induction changes as [|[t p] rest IH]; intros s Hs; simpl.
  - rewrite app_nil_r. symmetry. now apply lastn_all.
  - rewrite IH by now apply update_history_length.
    destruct (hash_password p) as [h|e] eqn:E.
    + rewrite (update_password_data_returns t p s h E).
      cbn [snd password_history].
      rewrite append_lastn by exact Hs.
      rewrite lastn_lastn_app, <- app_assoc. reflexivity.
    + rewrite (update_password_data_raises t p s e E). reflexivity.
Qed.

Lemma fingerprints_encodable ps :
  Forall encodable ps -> length (fingerprints ps) = length ps.
Proof.
  induction 1 as [|p rest Hp _ IH]; simpl; [reflexivity|].
  destruct (hash_password_returns p Hp) as [h ->]. simpl. now rewrite IH.
Qed.

Lemma fingerprints_In h ps :
  In h (fingerprints ps) -> exists p, In p ps /\ hash_password p = Return h.
Proof.
  induction ps as [|p rest IH]; simpl; [tauto|].
  destruct (hash_password p) as [h'|e] eqn:E.
  - intros [->|Hin]; [eauto|].
    destruct (IH Hin) as [q [Hq Hh]]. eauto.
  - intro Hin. destruct (IH Hin) as [q [Hq Hh]]. eauto.
Qed.

(** *** Floats *)

Lemma SF64sub_diag x :
  SF64sub x x = S754_nan \/ SF64sub x x = S754_zero false.
Proof.
  destruct x as [sg|sg| |sg m e].
  - right. destruct sg; reflexivity.
  - left. destruct sg; reflexivity.
  - left. reflexivity.
  - right. unfold SF64sub, SFsub. rewrite Z.sub_diag. reflexivity.
Qed.

Lemma not_expired_at_same_reading t :
  (float_of_int PASSWORD_EXPIRATION_DAYS <? days_since_change t t)%float = false.
Proof.
  unfold days_since_change.
  rewrite ltb_spec, div_spec, sub_spec.
  destruct (SF64sub_diag (Prim2SF t)) as [-> | ->]; vm_compute; reflexivity.
Qed.

Lemma update_sets_last_changed t p s :
  last_password_changed (snd (update_password_data t p s)) = Some t.
Proof.
  destruct (hash_password p) as [h|e] eqn:E.
  - now rewrite (update_password_data_returns t p s h E).
  - now rewrite (update_password_data_raises t p s e E).
Qed.

(** *** Division by 86400 and the comparison with 90, on binary64

    The quotient is computed by [SFdiv]: an integer division that keeps
    one digit more than the format holds, and a rounding to nearest even.
    For the divisor 86400 the integer quotient has 53 or 54 binary digits,
    so the rounding shifts by at most one digit. *)

Section Binary64.
Local Open Scope Z_scope.

Lemma digits2_pos_size p : digits2_pos p = Pos.size p.
Proof. induction p; simpl; now rewrite ?IHp. Qed.

Lemma Zdigits2_bounds p :
  2 ^ (Z.pos (digits2_pos p) - 1) <= Z.pos p < 2 ^ Z.pos (digits2_pos p).
Proof.
  rewrite digits2_pos_size. split.
  - pose proof (Pos.size_le p) as H.
    assert (H' : (Z.pos (2 ^ Pos.size p) <= Z.pos p~0)) by exact H.
    rewrite Pos2Z.inj_pow in H'.
    replace (Z.pos (Pos.size p)) with (Z.succ (Z.pos (Pos.size p) - 1)) in H' by lia.
    rewrite Z.pow_succ_r in H' by lia. lia.
  - pose proof (Pos.size_gt p) as H.
    assert (H' : (Z.pos p < Z.pos (2 ^ Pos.size p))) by exact H.
    now rewrite Pos2Z.inj_pow in H'.
Qed.

Lemma Zdigits2_le q k :
  0 < q -> 0 <= k -> q < 2 ^ k -> Zdigits2 q <= k.
Proof.
  intros Hq Hk Hlt. destruct q as [|p|p]; try lia. cbn [Zdigits2].
  destruct (Zdigits2_bounds p) as [Hlo _].
  destruct (Z.le_gt_cases (Z.pos (digits2_pos p)) k) as [H|H]; [exact H|].
  exfalso. assert (2 ^ k <= 2 ^ (Z.pos (digits2_pos p) - 1))
    by (apply Z.pow_le_mono_r; lia). lia.
Qed.

Lemma Zdigits2_ge q k :
  0 < k -> 2 ^ (k - 1) <= q -> k <= Zdigits2 q.
Proof.
  intros Hk Hge. assert (0 < 2 ^ (k - 1)) by (apply Z.pow_pos_nonneg; lia).
  destruct q as [|p|p]; try lia. cbn [Zdigits2].
  destruct (Zdigits2_bounds p) as [_ Hhi].
  destruct (Z.le_gt_cases k (Z.pos (digits2_pos p))) as [H'|H']; [exact H'|].
  exfalso. assert (2 ^ Z.pos (digits2_pos p) <= 2 ^ (k - 1))
    by (apply Z.pow_le_mono_r; lia). lia.
Qed.

Lemma fexp64_eq x : fexp prec emax x = Z.max (x - 53) (-1074).
Proof. reflexivity. Qed.

Lemma shr_fexp_small q e l :
  0 <= q -> Zdigits2 q <= 53 -> -1074 <= e ->
  shr_fexp prec emax q e l = (shr_record_of_loc q l, e).
Proof.
  intros Hq Hd He. unfold shr_fexp. rewrite fexp64_eq.
  assert (Hn : Z.max (Zdigits2 q + e - 53) (-1074) - e <= 0) by lia.
  unfold shr. destruct (Z.max (Zdigits2 q + e - 53) (-1074) - e); try reflexivity.
  lia.
Qed.

Lemma shr_fexp_54 q e l :
  Zdigits2 q = 54 -> -1074 <= e ->
  shr_fexp prec emax q e l = (shr_1 (shr_record_of_loc q l), e + 1).
Proof.
  intros Hd He. unfold shr_fexp. rewrite fexp64_eq, Hd.
  replace (Z.max (54 + e - 53) (-1074) - e) with 1 by lia.
  reflexivity.
Qed.

Lemma rne_bounds q l : q <= round_nearest_even q l <= q + 1.
Proof.
  unfold round_nearest_even. destruct l as [|[]]; try lia.
  destruct (Z.even q); lia.
Qed.

Lemma shr_record_of_loc_m q l : shr_m (shr_record_of_loc q l) = q.
Proof. destruct l as [|[]]; reflexivity. Qed.

Lemma loc_of_shr_record_of_loc q l :
  loc_of_shr_record (shr_record_of_loc q l) = l.
Proof. destruct l as [|[]]; reflexivity. Qed.

Lemma shr_1_spec q l :
  0 <= q ->
  shr_1 (shr_record_of_loc q l) =
  {| shr_m := q / 2; shr_r := Z.odd q; shr_s := inexact l |}.
Proof.
  intro Hq. destruct q as [|p|p]; [| |lia].
  - destruct l as [|[]]; reflexivity.
  - assert (Hdiv : forall p', Z.pos p'~0 / 2 = Z.pos p' /\ Z.pos p'~1 / 2 = Z.pos p').
    { intro p'. split.
      - change (Z.pos p'~0) with (2 * Z.pos p'). rewrite Z.mul_comm.
        apply Z.div_mul. lia.
      - change (Z.pos p'~1) with (2 * Z.pos p' + 1).
        symmetry. apply (Z.div_unique _ 2 _ 1); lia. }
    destruct p as [p'|p'|]; destruct l as [|[]]; cbn [shr_record_of_loc shr_1 orb inexact Z.odd];
      rewrite ?(proj1 (Hdiv p')), ?(proj2 (Hdiv p')); reflexivity.
Qed.

Lemma Zdigits2_0 : Zdigits2 0 = 0.
Proof. reflexivity. Qed.

Lemma bra_lt53 q e l :
  0 <= q < 2 ^ 53 -> -1074 <= e <= 970 ->
  binary_round_aux prec emax false q e l =
  let m1 := round_nearest_even q l in
  if m1 =? 0 then S754_zero false
  else if m1 <? 2 ^ 53 then S754_finite false (Z.to_pos m1) e
  else S754_finite false (Z.to_pos (2 ^ 52)) (e + 1).
Proof.
  intros Hq He. unfold binary_round_aux.
  assert (Hd : Zdigits2 q <= 53).
  { destruct (Z.eq_dec q 0) as [->|Hq0]; [rewrite Zdigits2_0; lia|].
    apply Zdigits2_le; lia. }
  rewrite shr_fexp_small by lia.
  rewrite shr_record_of_loc_m, loc_of_shr_record_of_loc.
  pose proof (rne_bounds q l) as Hm. cbv zeta.
  set (m1 := round_nearest_even q l) in *.
  destruct (Z.eqb_spec m1 0) as [E0|N0].
  - rewrite E0. rewrite shr_fexp_small by (rewrite ?Zdigits2_0; lia).
    reflexivity.
  - destruct (Z.ltb_spec m1 (2 ^ 53)) as [Hlt|Hge].
    + rewrite shr_fexp_small by (try apply Zdigits2_le; lia).
      cbn [shr_record_of_loc shr_m].
      destruct m1 as [|p|p]; try lia.
      replace (e <=? emax - prec) with true; [reflexivity|].
      symmetry. apply Z.leb_le. change (emax - prec) with 971. lia.
    + assert (E : m1 = 2 ^ 53) by lia. rewrite E.
      rewrite shr_fexp_54 by (try reflexivity; lia).
      cbn [shr_record_of_loc shr_1 shr_m].
      replace (e + 1 <=? emax - prec) with true; [reflexivity|].
      symmetry. apply Z.leb_le. change (emax - prec) with 971. lia.
Qed.

Lemma bra_ge53 q e l :
  2 ^ 53 <= q < 2 ^ 54 - 2 -> -1074 <= e <= 970 ->
  binary_round_aux prec emax false q e l =
  S754_finite false
    (Z.to_pos (round_nearest_even (q / 2)
                 (loc_of_shr_record
                    {| shr_m := q / 2; shr_r := Z.odd q; shr_s := inexact l |})))
    (e + 1).
Proof.
  intros Hq He. unfold binary_round_aux.
  assert (Hd : Zdigits2 q = 54).
  { apply Z.le_antisymm; [apply Zdigits2_le; lia | apply Zdigits2_ge; lia]. }
  rewrite shr_fexp_54 by lia.
  rewrite shr_1_spec by lia. cbn [shr_m].
  set (l' := loc_of_shr_record _).
  pose proof (rne_bounds (q / 2) l') as Hm.
  assert (Hq2 : 2 ^ 52 <= q / 2 < 2 ^ 53 - 1).
  { split.
    - apply Z.div_le_lower_bound; lia.
    - apply Z.div_lt_upper_bound; lia. }
  set (m1 := round_nearest_even (q / 2) l') in *.
  rewrite shr_fexp_small by (try apply Zdigits2_le; lia).
  cbn [shr_record_of_loc shr_m].
  destruct m1 as [|p|p]; try lia.
  replace (e + 1 <=? emax - prec) with true; [reflexivity|].
  symmetry. apply Z.leb_le. change (emax - prec) with 971. lia.
Qed.

Lemma ltb_finite (t : positive) (et : Z) (p : positive) (e : Z) :
  SFltb (S754_finite false t et) (S754_finite false p e) =
  (et <? e) || ((e =? et) && (Z.pos t <? Z.pos p)).
Proof.
  unfold SFltb, SFcompare.
  destruct (Z.compare_spec et e) as [E|L|G].
  - subst e. rewrite Z.ltb_irrefl, Z.eqb_refl. cbn [orb andb].
    rewrite Pos.compare_cont_spec. cbn [Pos.switch_Eq].
    unfold Z.ltb. cbn [Z.compare].
    destruct (t ?= p)%positive; reflexivity.
  - replace (et <? e) with true by (symmetry; apply Z.ltb_lt; lia).
    reflexivity.
  - replace (et <? e) with false by (symmetry; apply Z.ltb_ge; lia).
    replace (e =? et) with false by (symmetry; apply Z.eqb_neq; lia).
    reflexivity.
Qed.

Lemma ltb_zero t et s :
  SFltb (S754_finite false t et) (S754_zero s) = false.
Proof. reflexivity. Qed.

(** Small quotients stay below 90. *)
Lemma bra_small q e l :
  0 <= q < 2 ^ 54 - 2 -> -1074 <= e <= -48 ->
  SFltb SF90 (binary_round_aux prec emax false q e l) = false.
Proof.
  intros Hq He. destruct (Z.lt_ge_cases q (2 ^ 53)) as [H|H].
  - rewrite bra_lt53 by lia. cbv zeta.
    destruct (_ =? 0); [reflexivity|].
    destruct (_ <? 2 ^ 53); unfold SF90; rewrite ltb_finite.
    + replace (-46 <? e) with false by (symmetry; apply Z.ltb_ge; lia).
      replace (e =? -46) with false by (symmetry; apply Z.eqb_neq; lia).
      reflexivity.
    + replace (-46 <? e + 1) with false by (symmetry; apply Z.ltb_ge; lia).
      replace (e + 1 =? -46) with false by (symmetry; apply Z.eqb_neq; lia).
      reflexivity.
  - rewrite bra_ge53 by lia. unfold SF90. rewrite ltb_finite.
    replace (-46 <? e + 1) with false by (symmetry; apply Z.ltb_ge; lia).
    replace (e + 1 =? -46) with false by (symmetry; apply Z.eqb_neq; lia).
    reflexivity.
Qed.

(** Quotients of at least 2^52 units of 2^-45 or more exceed 90. *)
Lemma bra_large q e l :
  2 ^ 52 <= q < 2 ^ 54 - 2 -> -45 <= e <= 970 ->
  SFltb SF90 (binary_round_aux prec emax false q e l) = true.
Proof.
  intros Hq He. destruct (Z.lt_ge_cases q (2 ^ 53)) as [H|H].
  - rewrite bra_lt53 by lia. cbv zeta.
    pose proof (rne_bounds q l) as Hm.
    destruct (Z.eqb_spec (round_nearest_even q l) 0); [lia|].
    destruct (_ <? 2 ^ 53); unfold SF90; rewrite ltb_finite.
    + replace (-46 <? e) with true by (symmetry; apply Z.ltb_lt; lia).
      reflexivity.
    + replace (-46 <? e + 1) with true by (symmetry; apply Z.ltb_lt; lia).
      reflexivity.
  - rewrite bra_ge53 by lia. unfold SF90. rewrite ltb_finite.
    replace (-46 <? e + 1) with true by (symmetry; apply Z.ltb_lt; lia).
    reflexivity.
Qed.

Lemma bra_m46 q l :
  Z.pos M90 < q < 2 ^ 54 - 2 ->
  SFltb SF90 (binary_round_aux prec emax false q (-46) l) = true.
Proof.
  intros Hq. unfold M90 in Hq. destruct (Z.lt_ge_cases q (2 ^ 53)) as [H|H].
  - rewrite bra_lt53 by lia. cbv zeta.
    pose proof (rne_bounds q l) as Hm.
    destruct (Z.eqb_spec (round_nearest_even q l) 0); [lia|].
    destruct (_ <? 2 ^ 53); unfold SF90; rewrite ltb_finite.
    + rewrite Z.eqb_refl, Z.ltb_irrefl. cbn [orb andb].
      apply Z.ltb_lt. rewrite Z2Pos.id by lia. unfold M90. lia.
    + reflexivity.
  - rewrite bra_ge53 by lia. unfold SF90. rewrite ltb_finite. reflexivity.
Qed.

Lemma bra_m47_below q l :
  0 <= q <= 2 * Z.pos M90 ->
  SFltb SF90 (binary_round_aux prec emax false q (-47) l) = false.
Proof.
  intros Hq. unfold M90 in Hq. destruct (Z.lt_ge_cases q (2 ^ 53)) as [H|H].
  - rewrite bra_lt53 by lia. cbv zeta.
    destruct (_ =? 0); [reflexivity|].
    destruct (_ <? 2 ^ 53); unfold SF90; rewrite ltb_finite; reflexivity.
  - rewrite bra_ge53 by lia. unfold SF90. rewrite ltb_finite.
    change (-47 + 1) with (-46). rewrite Z.eqb_refl, Z.ltb_irrefl.
    cbn [orb andb]. apply Z.ltb_ge.
    assert (Hq2 : 2 ^ 52 <= q / 2) by (apply Z.div_le_lower_bound; lia).
    set (l' := loc_of_shr_record _).
    pose proof (rne_bounds (q / 2) l') as Hm.
    rewrite Z2Pos.id by lia. unfold M90.
    destruct (Z.odd q) eqn:Odd.
    + (* q odd: q <= 2 * M90 - 1, so q / 2 <= M90 - 1 *)
      assert (q / 2 <= 6333186975989760 - 1).
      { apply Z.lt_succ_r. apply Z.div_lt_upper_bound; [lia|].
        rewrite <- Z.negb_even in Odd. apply negb_true_iff in Odd.
        destruct (Z.eq_dec q (2 * 6333186975989760)) as [E|N]; [|lia].
        rewrite E in Odd. discriminate Odd. }
      lia.
    + (* q even: no round bit, the mantissa is q / 2 *)
      assert (q / 2 <= 6333186975989760)
        by (apply Z.lt_succ_r; apply Z.div_lt_upper_bound; lia).
      assert (E : round_nearest_even (q / 2) l' = q / 2).
      { unfold l'. cbn [loc_of_shr_record]. destruct (inexact l); reflexivity. }
      lia.
Qed.

Lemma bra_m47_above q l :
  2 * Z.pos M90 < q < 2 ^ 54 - 2 ->
  (Z.odd q = true -> inexact l = true) ->
  SFltb SF90 (binary_round_aux prec emax false q (-47) l) = true.
Proof.
  intros Hq Hodd. unfold M90 in Hq.
  rewrite bra_ge53 by lia. unfold SF90. rewrite ltb_finite.
  change (-47 + 1) with (-46). rewrite Z.eqb_refl, Z.ltb_irrefl.
  cbn [orb andb]. apply Z.ltb_lt.
  set (l' := loc_of_shr_record _).
  pose proof (rne_bounds (q / 2) l') as Hm.
  assert (Hq2 : 6333186975989760 <= q / 2)
    by (apply Z.div_le_lower_bound; lia).
  rewrite Z2Pos.id by lia. unfold M90.
  destruct (Z.odd q) eqn:Odd.
  - assert (E : round_nearest_even (q / 2) l' = q / 2 + 1).
    { unfold l'. cbn [loc_of_shr_record]. rewrite (Hodd eq_refl).
      reflexivity. }
    lia.
  - assert (6333186975989760 + 1 <= q / 2); [|lia].
    apply Z.div_le_lower_bound; [lia|].
    destruct (Z.eq_dec q (2 * 6333186975989760 + 1)) as [E|N]; [|lia].
    rewrite E in Odd. discriminate Odd.
Qed.

Lemma new_location_inexact r :
  inexact (new_location (Z.pos M86400) r) = negb (r =? 0).
Proof.
  unfold new_location. change (Z.even (Z.pos M86400)) with true. cbv iota.
  unfold new_location_even. destruct (r =? 0); reflexivity.
Qed.

Lemma div_threshold_pos m e :
  bounded prec emax m e = true ->
  SFltb SF90 (SFdiv prec emax (S754_finite false m e) SF86400) =
  SFltb SF7776000 (S754_finite false m e).
Proof.
  unfold bounded, canonical_mantissa. intro Hb.
  apply andb_true_iff in Hb. destruct Hb as [Hcan He].
  apply Z.eqb_eq in Hcan. apply Z.leb_le in He.
  change (emax - prec) with 971 in He. rewrite fexp64_eq in Hcan.
  pose proof (Zdigits2_bounds m) as Hm.
  unfold SF7776000 at 1. rewrite ltb_finite.
  unfold SFdiv, SF86400, SFdiv_core_binary. cbn [xorb Zdigits2].
  change (Z.pos (digits2_pos M86400)) with 53. rewrite fexp64_eq.
  set (D := Z.pos (digits2_pos m)) in *.
  assert (HD : 1 <= D) by (unfold D; lia).
  destruct (Z.le_gt_cases (-1074) (D + e - 70)) as [HA|HB].
  - (* the quotient is a normal number *)
    assert (D = 53) by lia. 
    replace (Z.min (Z.max (D + e - (53 + -36) - 53) (-1074)) (e - -36))
      with (e - 17) by lia.
    replace (e - -36 - (e - 17)) with 53 by lia. cbv iota.
    rewrite Z.shiftl_mul_pow2 by lia.
    pose proof (Z_div_mod (Z.pos m * 2 ^ 53) (Z.pos M86400) eq_refl) as Hdiv.
    destruct (Z.div_eucl (Z.pos m * 2 ^ 53) (Z.pos M86400)) as [q r].
    destruct Hdiv as [Hq Hr]. unfold M86400 in Hq, Hr. rewrite H in Hm.
    assert (Hqb : 2 ^ 52 <= q < 2 ^ 54 - 2) by lia.
    unfold M7776000.
    destruct (Z.lt_trichotomy e (-30)) as [L|[E|G]].
    + (* below the binade of the threshold *)
      rewrite bra_small by lia.
      replace (-30 <? e) with false by (symmetry; apply Z.ltb_ge; lia).
      replace (e =? -30) with false by (symmetry; apply Z.eqb_neq; lia).
      reflexivity.
    + (* the binade of the threshold *)
      subst e. change (-30 - 17) with (-47). cbn [Z.ltb Z.eqb Z.compare orb andb].
      destruct (Z.ltb_spec 8349416423424000 (Z.pos m)) as [Hgt|Hle].
      * apply bra_m47_above; [unfold M90; lia|].
        intro Odd. rewrite new_location_inexact. apply negb_true_iff.
        apply Z.eqb_neq. intro R0. subst r.
        rewrite <- Z.negb_even in Odd. apply negb_true_iff in Odd.
        rewrite Z.add_0_r in Hq.
        assert (Ev : Z.even q = true).
        { apply Z.even_spec. exists (512 * Z.pos m - 337 * q). lia. }
        rewrite Ev in Odd. discriminate Odd.
      * apply bra_m47_below. unfold M90. lia.
    + destruct (Z.eq_dec e (-29)) as [E|N].
      * subst e. change (-29 - 17) with (-46). cbn [Z.ltb Z.eqb Z.compare orb].
        apply bra_m46. unfold M90. lia.
      * rewrite bra_large by lia.
        replace (-30 <? e) with true by (symmetry; apply Z.ltb_lt; lia).
        reflexivity.
  - (* the quotient is tiny *)
    replace (Z.min (Z.max (D + e - (53 + -36) - 53) (-1074)) (e - -36))
      with (-1074) by lia.
    replace (e - -36 - -1074) with (e + 1110) by lia.
    assert (Hs : 0 < e + 1110) by lia.
    assert (Hpow : Z.pos m * 2 ^ (e + 1110) < 2 ^ 105).
    { apply Z.lt_le_trans with (2 ^ D * 2 ^ (e + 1110)).
      - apply Z.mul_lt_mono_pos_r; [apply Z.pow_pos_nonneg; lia | lia].
      - rewrite <- Z.pow_add_r by lia. apply Z.pow_le_mono_r; lia. }
    assert (Hnn : 0 <= Z.pos m * 2 ^ (e + 1110))
      by (apply Z.mul_nonneg_nonneg; [lia | apply Z.pow_nonneg; lia]).
    rewrite <- (Z.shiftl_mul_pow2 (Z.pos m) (e + 1110)) in Hpow, Hnn by lia.
    destruct (e + 1110) as [|sp|sp] eqn:Es; try lia.
    set (X := Z.shiftl (Z.pos m) (Z.pos sp)) in *.
    pose proof (Z_div_mod X (Z.pos M86400) eq_refl) as Hdiv.
    destruct (Z.div_eucl X (Z.pos M86400)) as [q r].
    destruct Hdiv as [Hq Hr]. unfold M86400 in Hq, Hr.
    rewrite bra_small by lia.
    replace (-30 <? e) with false by (symmetry; apply Z.ltb_ge; lia).
    replace (e =? -30) with false by (symmetry; apply Z.eqb_neq; lia).
    reflexivity.
Qed.

(** For every binary64 value, the quotient by 86400 exceeds 90 exactly when
    the value exceeds 7776000. *)
Lemma div_threshold x :
  valid_binary x = true ->
  SFltb SF90 (SFdiv prec emax x SF86400) = SFltb SF7776000 x.
Proof.
  destruct x as [s|s| |s m e]; intro Hv.
  - destruct s; reflexivity.
  - destruct s; reflexivity.
  - reflexivity.
  - destruct s.
    + (* negative *)
      unfold SFdiv, SF86400. cbn [xorb].
      destruct (SFdiv_core_binary _ _ _ _ _ _) as [[mz ez] lz].
      unfold binary_round_aux.
      destruct (shr_fexp prec emax mz ez lz) as [mrs' e'].
      destruct (shr_fexp prec emax _ e' loc_Exact) as [mrs'' e''].
      destruct (shr_m mrs'') as [|p|p]; [reflexivity| |reflexivity].
      destruct (e'' <=? emax - prec); reflexivity.
    + now apply div_threshold_pos.
Qed.

End Binary64.

(** The test of the code, in seconds: the days elapsed exceed 90 exactly
    when the binary64 difference of the two readings exceeds 7776000. *)
Lemma expired_iff_seconds now last :
  (float_of_int PASSWORD_EXPIRATION_DAYS <? days_since_change now last)%float
  = (7776000 <? now - last)%float.
Proof.
  unfold days_since_change. rewrite !ltb_spec, div_spec.
  change (Prim2SF (float_of_int PASSWORD_EXPIRATION_DAYS)) with SF90.
  change (Prim2SF (float_of_int (24 * 3600))) with SF86400.
  change (Prim2SF 7776000) with SF7776000.
  apply div_threshold, Prim2SF_valid.
Qed.

(** C6, amended. [is_password_expired] returns a boolean and leaves the
    record alone; the boolean is true exactly when last-changed is unset or
    the elapsed time, computed as the binary64 difference of the clock
    reading and last-changed, exceeds 7776000 seconds, which is 90 days.
    On the initial record it returns true. After [update_password_data]
    it returns false for every clock reading whose computed difference
    from the reading the update stored is at most 7776000 seconds, and so
    when the clock still shows the reading the update stored. *)
Theorem is_password_expired_spec :
  (forall now s, exists b,
      is_password_expired now s = (Return b, s) /\
      (b = true <->
       last_password_changed s = None \/
       exists last,
         last_password_changed s = Some last /\
         (7776000 <? now - last)%float = true)) /\
  (forall now,
      is_password_expired now user_password_data =
      (Return true, user_password_data)) /\
  (forall t t' p s,
      (7776000 <? t' - t)%float = false ->
      fst (is_password_expired t' (snd (update_password_data t p s))) =
      Return false) /\
  (forall t p s,
      fst (is_password_expired t (snd (update_password_data t p s))) =
      Return false).
Proof.
  split; [|split; [|split]].
  - intros now s. unfold is_password_expired, bind, get, ret.
    destruct (last_password_changed s) as [last|].
    + eexists. split; [reflexivity|]. rewrite expired_iff_seconds. split.
      * intro H. right. exists last. split; [reflexivity | exact H].
      * intros [H | [last' [Heq H]]]; [discriminate H|].
        injection Heq as <-. exact H.
    + exists true. split; [reflexivity|]. split; [now left | reflexivity].
  - intro now. reflexivity.
  - intros t t' p s H. unfold is_password_expired, bind, get, ret.
    rewrite update_sets_last_changed. cbn [fst].
    now rewrite expired_iff_seconds, H.
  - intros t p s. unfold is_password_expired, bind, get, ret.
    rewrite update_sets_last_changed. cbn [fst].
    now rewrite not_expired_at_same_reading.
Qed.

(** C6 at a check 89 days after the first sample change. *)
Lemma not_expired_after_89_days_witness :
  fst (is_password_expired (float_of_int (1700000060 + 89 * 86400))
         (snd (update_password_data (sample_clock 1) (numbered_password 1)
                 user_password_data))) =
  Return false.
Proof.
  apply (proj1 (proj2 (proj2 is_password_expired_spec))).
  vm_compute. reflexivity.
Defined.

(** C6 as stated fails where the subtraction rounds: between the two
    readings lie 7776000 + 2^-53 seconds, more than 90 days, and the
    computed difference is 7776000, so the record is not expired. *)
Lemma rounded_difference_counterexample :
  exists now_seconds last_seconds,
    exact_seconds rounding_now = Some now_seconds /\
    exact_seconds rounding_last = Some last_seconds /\
    Qeq now_seconds (inject_Z 7776001) /\
    Qeq last_seconds (Qmake 9007199254740991 9007199254740992) /\
    Qlt (inject_Z (90 * 24 * 3600)) (Qminus now_seconds last_seconds) /\
    is_password_expired rounding_now
      {| last_password_changed := Some rounding_last;
         password_history := [] |} =
    (Return false,
     {| last_password_changed := Some rounding_last;
        password_history := [] |}).
Proof.
  eexists. eexists.
  split; [vm_compute; reflexivity|]. split; [vm_compute; reflexivity|].
  split; [vm_compute; reflexivity|]. split; [vm_compute; reflexivity|].
  split; vm_compute; reflexivity.
Qed.

(** C7, amended. For every password that UTF-8 can encode (no surrogate
    code point), [update_password_data] returns true, sets last-changed to
    the clock reading and appends the SHA-256 fingerprint of the encoded
    password on the right of the history; a history that already holds 24
    fingerprints loses its oldest one. *)
Theorem update_password_data_succeeds t p s :
  encodable p ->
  exists data,
    str_encode p = Some data /\
    let h := hashlib.hexdigest (hashlib.sha256 data) in
    let s' := snd (update_password_data t p s) in
    fst (update_password_data t p s) = Return true /\
    last_password_changed s' = Some t /\
    ((length (password_history s) < PASSWORD_HISTORY_LIMIT)%nat ->
     password_history s' = password_history s ++ [h]) /\
    (length (password_history s) = PASSWORD_HISTORY_LIMIT ->
     password_history s' = tl (password_history s) ++ [h]).
Proof.
  intro Hp. apply str_encode_some in Hp. destruct Hp as [data Hdata].
  exists data. split; [exact Hdata|]. cbv zeta.
  assert (E : hash_password p =
              Return (hashlib.hexdigest (hashlib.sha256 data))).
  { unfold hash_password. now rewrite Hdata. }
  rewrite (update_password_data_returns t p s _ E). cbn [fst snd
    last_password_changed password_history].
  split; [reflexivity|]. split; [reflexivity|]. split.
  - apply append_below.
  - intro H. apply append_full; [exact H | unfold PASSWORD_HISTORY_LIMIT; lia].
Qed.

(** C5, amended. For every password that UTF-8 can encode and every record,
    [update_password_data] returns true, and [is_password_reused] on the
    same password in the record it leaves returns true. *)
Theorem reused_after_update t p s :
  encodable p ->
  exists s',
    update_password_data t p s = (Return true, s') /\
    is_password_reused p s' = (Return true, s').
Proof.
  intro Hp. destruct (hash_password_returns p Hp) as [h E].
  eexists. split; [apply (update_password_data_returns t p s h E)|].
  rewrite (is_password_reused_returns p _ h E). cbn [password_history].
  f_equal. f_equal. apply contains_In, append_In.
  unfold PASSWORD_HISTORY_LIMIT. lia.
Qed.

Section History.
Context {ucd : UnicodeData}.

Lemma reachable_history_length s :
  reachable s ->
  (length (password_history s) <= PASSWORD_HISTORY_LIMIT)%nat.
Proof.
  induction 1 as [|t p s _ IH|p s _ IH|t s _ IH|p s _ IH].
  - simpl. lia.
  - now apply update_history_length.
  - now rewrite is_password_reused_state.
  - now rewrite is_password_expired_state.
  - now rewrite check_password_strength_eq.
Qed.

(** C4, amended. (1) In every record the operations can reach, the history
    holds at most 24 fingerprints. (2) Recording a change on a full history
    drops the oldest fingerprint and appends the new one. (3) After any
    sequence of changes from the initial record, the history is the last 24
    fingerprints recorded, in order. (4) After 25 changes whose passwords
    UTF-8 can encode, where no later password has the fingerprint of the
    first, [is_password_reused] on the first password returns false. *)
Theorem history_bounded_fifo :
  (forall s, reachable s ->
     (length (password_history s) <= PASSWORD_HISTORY_LIMIT)%nat) /\
  (forall t p h s,
     length (password_history s) = PASSWORD_HISTORY_LIMIT ->
     hash_password p = Return h ->
     password_history (snd (update_password_data t p s)) =
     tl (password_history s) ++ [h]) /\
  (forall changes,
     password_history (record_changes changes user_password_data) =
     lastn PASSWORD_HISTORY_LIMIT (fingerprints (map snd changes))) /\
  (forall t1 p1 rest,
     length rest = PASSWORD_HISTORY_LIMIT ->
     Forall encodable (p1 :: map snd rest) ->
     (forall q, In q (map snd rest) -> hash_password q <> hash_password p1) ->
     let s := record_changes ((t1, p1) :: rest) user_password_data in
     is_password_reused p1 s = (Return false, s)).
Proof.
  split; [exact reachable_history_length|]. split; [|split].
  - intros t p h s Hfull E.
    rewrite (update_password_data_returns t p s h E).
    cbn [snd password_history].
    apply append_full; [exact Hfull | unfold PASSWORD_HISTORY_LIMIT; lia].
  - intro changes. rewrite record_changes_history by (simpl; lia).
    reflexivity.
  - intros t1 p1 rest Hlen Henc Hdistinct s.
    inversion Henc as [|? ? Hp1 Hrest]; subst.
    destruct (hash_password_returns p1 Hp1) as [h1 E1].
    rewrite (is_password_reused_returns p1 s h1 E1).
    f_equal. f_equal.
    destruct (deque.contains h1 (password_history s)) eqn:C; [|reflexivity].
    exfalso. apply contains_In in C. unfold s in C.
    rewrite record_changes_history in C by (simpl; lia).
    assert (F : fingerprints (map snd ((t1, p1) :: rest)) =
                h1 :: fingerprints (map snd rest)).
    { cbn [map snd fingerprints]. now rewrite E1. }
    rewrite F in C. cbn [user_password_data password_history deque.new app] in C.
    unfold lastn in C. cbn [length] in C.
    rewrite fingerprints_encodable in C by exact Hrest.
    rewrite length_map, Hlen in C.
    replace (S PASSWORD_HISTORY_LIMIT - PASSWORD_HISTORY_LIMIT)%nat
      with 1%nat in C by lia.
    cbn [skipn] in C.
    apply fingerprints_In in C. destruct C as [q [Hq Eq]].
    apply (Hdistinct q Hq). now rewrite Eq, E1.
Qed.

(** C9. [is_password_reused] and [check_password_strength] leave the record
    as it was: last-changed and history are the same after the call as
    before, whether the call returns or raises. *)
Theorem reuse_and_strength_are_read_only p s :
  snd (is_password_reused p s) = s /\
  snd (check_password_strength p s) = s.
Proof.
  split; [apply is_password_reused_state|].
  now rewrite check_password_strength_eq.
Qed.

End History.

(** *** Checks by computation, for concrete data *)

Lemma encodable_check p :
  forallb is_scalar_value p = true -> encodable p.
Proof.
  intro H. apply Forall_forall. intros c Hc.
  exact (proj1 (forallb_forall _ _) H c Hc).
Qed.

Lemma NoDup_check (l : list str) :
  nodup (list_eq_dec N.eq_dec) l = l -> NoDup l.
Proof. intro H. rewrite <- H. apply NoDup_nodup. Qed.

(** C2 at the password of the module's demonstration. *)
Lemma strong_password_witness :
  check_password_strength (ucd := sample_unicode)
    (lit "StrongPassw0rd!") user_password_data =
  (Return (true, []), user_password_data).
Proof.
  apply (strong_password_has_no_issue (ucd := sample_unicode)).
  - vm_compute. lia.
  - exists 83. split; [vm_compute; tauto | lia].
  - exists 116. split; [vm_compute; tauto | lia].
  - exists 48. split; [vm_compute; tauto | reflexivity].
  - exists 33. split; vm_compute; tauto.
Defined.

(** C2 as worded fails for a capital letter outside A-Z: the password has
    sixteen characters, among them the capital U+00C9, small letters, the
    digit 0 and an exclamation mark, and the uppercase issue is reported. *)
Lemma accented_capital_counterexample :
  (14 <= length accented_password)%nat /\
  (exists c, In c accented_password /\ latin1_uppercase c) /\
  (exists c, In c accented_password /\ latin1_lowercase c) /\
  (exists c, In c accented_password /\ 48 <= c <= 57) /\
  (exists c, In c accented_password /\ In c special_characters) /\
  check_password_strength (ucd := sample_unicode) accented_password
    user_password_data =
  (Return (false, [msg_upper]), user_password_data).
Proof.
  split; [vm_compute; lia|].
  split. { exists 0xC9. split; [now left | unfold latin1_uppercase; lia]. }
  split. { exists 116. split; [vm_compute; tauto | unfold latin1_lowercase; lia]. }
  split. { exists 48. split; [vm_compute; tauto | lia]. }
  split. { exists 33. split; vm_compute; tauto. }
  vm_compute. reflexivity.
Qed.

(** C3 at a password of six characters. *)
Lemma short_password_witness :
  exists issues,
    check_password_strength (ucd := sample_unicode)
      (lit "Sh0rt!") user_password_data =
    (Return (false, issues), user_password_data) /\
    In msg_length issues.
Proof.
  apply (short_password_reports_length (ucd := sample_unicode)).
  vm_compute. lia.
Defined.

(** C7 at the first sample password. *)
Lemma update_password_data_witness :
  fst (update_password_data (sample_clock 1) (numbered_password 1)
         user_password_data) = Return true.
Proof.
  destruct (update_password_data_succeeds (sample_clock 1)
              (numbered_password 1) user_password_data) as [data [_ H]].
  - apply encodable_check. reflexivity.
  - exact (proj1 H).
Defined.

(** C5 at the first sample password. *)
Lemma reused_after_update_witness :
  exists s',
    update_password_data (sample_clock 1) (numbered_password 1)
      user_password_data = (Return true, s') /\
    is_password_reused (numbered_password 1) s' = (Return true, s').
Proof.
  apply reused_after_update. apply encodable_check. reflexivity.
Defined.

(** C4 (4) at the twenty-five sample passwords. *)
Lemma first_of_25_evicted_witness :
  is_password_reused (numbered_password 1)
    (record_changes sample_changes user_password_data) =
  (Return false, record_changes sample_changes user_password_data).
Proof.
  apply (proj2 (proj2 (proj2 (history_bounded_fifo (ucd := sample_unicode))))
           (sample_clock 1) (numbered_password 1) (tl sample_changes)).
  - reflexivity.
  - cbv [sample_changes map seq tl snd].
    repeat (apply Forall_cons; [apply encodable_check; reflexivity|]).
    apply Forall_nil.
  - intros q Hq.
    assert (F : Forall (fun q => hash_password q <>
                                 hash_password (numbered_password 1))
                       (map snd (tl sample_changes))).
    { cbv [sample_changes map seq tl snd].
      repeat (apply Forall_cons; [vm_compute; discriminate|]).
      apply Forall_nil. }
    exact (proj1 (Forall_forall _ _) F q Hq).
Defined.

(** Twenty-five distinct passwords of which the first is a lone surrogate:
    recording the first raises and records no fingerprint, and
    [is_password_reused] on it raises instead of returning false. *)
Lemma surrogate_first_password_counterexample :
  length surrogate_changes = 25%nat /\
  NoDup (map snd surrogate_changes) /\
  update_password_data (sample_clock 1) lone_surrogate user_password_data =
    (Raise UnicodeEncodeError,
     {| last_password_changed := Some (sample_clock 1);
        password_history := [] |}) /\
  is_password_reused lone_surrogate
    (record_changes surrogate_changes user_password_data) =
  (Raise UnicodeEncodeError,
   record_changes surrogate_changes user_password_data).
Proof.
  split; [reflexivity|]. split; [apply NoDup_check; vm_compute; reflexivity|].
  split; [reflexivity|].
  apply (f_equal (fun o => (o, _))). reflexivity.
Qed.

(** C5 as stated fails at a lone surrogate: [update_password_data] raises,
    and so does [is_password_reused] in the record it leaves. *)
Lemma surrogate_reuse_counterexample :
  update_password_data (sample_clock 2) lone_surrogate user_password_data =
    (Raise UnicodeEncodeError,
     {| last_password_changed := Some (sample_clock 2);
        password_history := [] |}) /\
  is_password_reused lone_surrogate
    {| last_password_changed := Some (sample_clock 2);
       password_history := [] |} =
    (Raise UnicodeEncodeError,
     {| last_password_changed := Some (sample_clock 2);
        password_history := [] |}).
Proof. split; reflexivity. Qed.

(** C7 as stated fails at a lone surrogate: [update_password_data] raises
    [UnicodeEncodeError] and appends nothing. *)
Lemma surrogate_update_counterexample :
  fst (update_password_data (sample_clock 3) lone_surrogate
         user_password_data) = Raise UnicodeEncodeError /\
  password_history
    (snd (update_password_data (sample_clock 3) lone_surrogate
            user_password_data)) = [].
Proof. split; reflexivity. Qed.

(** *** Examples *)

Example expired_examples :
  let t0 := 1700000000%Z in
  let s := snd (update_password_data (float_of_int t0)
                  (lit "StrongPassw0rd!") user_password_data) in
  fst (is_password_expired (float_of_int (t0 + 60)) s) = Return false /\
  fst (is_password_expired (float_of_int (t0 + 90 * 86400)) s) = Return false /\
  fst (is_password_expired (float_of_int (t0 + 90 * 86400 + 1)) s) = Return true.
Proof. vm_compute. repeat split. Qed.

Example strength_examples :
  fst (check_password_strength (ucd := sample_unicode)
         (lit "StrongPassw0rd!") user_password_data) = Return (true, []) /\
  fst (check_password_strength (ucd := sample_unicode)
         (lit "weak") user_password_data)
    = Return (false, [msg_length; msg_upper; msg_digit; msg_special]) /\
  fst (check_password_strength (ucd := sample_unicode)
         lone_surrogate user_password_data)
    = Return (false, [msg_length; msg_upper; msg_lower; msg_digit; msg_special]).
Proof. vm_compute. repeat split. Qed.

(** [\d] is not limited to ASCII: with U+0663 as its only digit the password
    passes; with the superscript two, U+00B2, which is no decimal digit of
    the table, it does not. *)
Example non_ascii_digit_examples :
  fst (check_password_strength (ucd := sample_unicode)
         (lit "StrongPassword!" ++ [0x663]) user_password_data)
    = Return (true, []) /\
  fst (check_password_strength (ucd := sample_unicode)
         (lit "StrongPassword!" ++ [0xB2]) user_password_data)
    = Return (false, [msg_digit]).
Proof. vm_compute. repeat split. Qed.

(** An update that raises has already stored the clock reading: the record
    is no longer expired although its history is still empty. *)
Example raised_update_resets_expiration :
  let s := snd (update_password_data (sample_clock 1) lone_surrogate
                  user_password_data) in
  fst (is_password_expired (sample_clock 1) user_password_data) = Return true /\
  fst (is_password_expired (sample_clock 2) s) = Return false /\
  password_history s = [].
Proof. vm_compute. repeat split. Qed.

(** * Further properties *)

(** ** [hash_password] *)

Lemma flat_map_length_const {A B} (f : A -> list B) (k : nat) (l : list A) :
  (forall x, length (f x) = k) -> length (flat_map f l) = (k * length l)%nat.
Proof.
  intro H. induction l as [|x l IH]; simpl.
  - lia.
  - rewrite length_app, H, IH. lia.
Qed.

Lemma be_bytes_length n x : length (hashlib.be_bytes n x) = n.
Proof. induction n as [|n IH]; simpl; [reflexivity | now rewrite IH]. Qed.

Lemma be_bytes_bound n x :
  Forall (fun b => b < 256) (hashlib.be_bytes n x).
Proof.
  induction n as [|n IH]; simpl; constructor; [|exact IH].
  change 255 with (N.ones 8). rewrite N.land_ones.
  apply N.mod_lt. discriminate.
Qed.

Lemma compress_length h block :
  length h = 8%nat -> length (hashlib.compress h block) = 8%nat.
Proof.
  intro H. unfold hashlib.compress.
  rewrite length_map, length_combine, H. reflexivity.
Qed.

Lemma fold_compress_length bl : forall h,
  length h = 8%nat -> length (fold_left hashlib.compress bl h) = 8%nat.
Proof.
  induction bl as [|b bl IH]; intros h H; simpl; [exact H|].
  apply IH, compress_length, H.
Qed.

Lemma sha256_length m : length (hashlib.sha256 m) = 32%nat.
Proof.
  unfold hashlib.sha256.
  rewrite (flat_map_length_const _ 4) by (intro; apply be_bytes_length).
  rewrite fold_compress_length; reflexivity.
Qed.

Lemma sha256_bytes m : Forall (fun b => b < 256) (hashlib.sha256 m).
Proof.
  unfold hashlib.sha256. apply Forall_flat_map, Forall_forall.
  intros x _. apply be_bytes_bound.
Qed.

Lemma hex_digit_char d : d < 16 -> is_hex_char (hashlib.hex_digit d).
Proof.
  intro H. unfold hashlib.hex_digit, is_hex_char.
  destruct (N.ltb_spec d 10); lia.
Qed.

Lemma hexdigest_chars digest :
  Forall (fun b => b < 256) digest ->
  Forall is_hex_char (hashlib.hexdigest digest).
Proof.
  intro H. unfold hashlib.hexdigest. apply Forall_flat_map.
  apply Forall_impl with (2 := H). intros b Hb.
  apply Forall_cons; [|apply Forall_cons; [|apply Forall_nil]];
    apply hex_digit_char.
  - rewrite N.shiftr_div_pow2. change (2 ^ 4) with 16.
    apply N.Div0.div_lt_upper_bound. lia.
  - change 15 with (N.ones 4). rewrite N.land_ones.
    apply N.mod_lt. discriminate.
Qed.

(** X2. A fingerprint [hash_password] returns has 64 characters, each a
    digit or a letter from a to f. *)
Theorem hash_password_format p h :
  hash_password p = Return h ->
  length h = 64%nat /\ Forall is_hex_char h.
Proof.
  unfold hash_password. destruct (str_encode p) as [data|]; [|discriminate].
  intro H. injection H as <-. split.
  - unfold hashlib.hexdigest.
    rewrite (flat_map_length_const _ 2) by reflexivity.
    now rewrite sha256_length.
  - apply hexdigest_chars, sha256_bytes.
Qed.

(** ** Passwords that cannot be encoded *)

Lemma surrogate_not_scalar c :
  0xD800 <= c <= 0xDFFF -> is_scalar_value c = false.
Proof.
  intros [Hlo Hhi]. unfold is_scalar_value, is_surrogate.
  apply N.leb_le in Hlo. apply N.leb_le in Hhi.
  rewrite Hlo, Hhi. apply andb_false_r.
Qed.

Lemma scalar_or_surrogate c :
  c <= 0x10FFFF -> is_scalar_value c = true \/ 0xD800 <= c <= 0xDFFF.
Proof.
  intro H. unfold is_scalar_value, is_surrogate.
  apply N.leb_le in H. rewrite H. cbn [andb].
  destruct (N.leb_spec 0xD800 c), (N.leb_spec c 0xDFFF); cbn; auto.
Qed.

Lemma encodable_or_surrogate p :
  Forall (fun c => c <= 0x10FFFF) p ->
  encodable p \/ exists c, In c p /\ 0xD800 <= c <= 0xDFFF.
Proof.
  induction 1 as [|c rest Hc _ IH].
  - left. constructor.
  - destruct (scalar_or_surrogate c Hc) as [Hs|Hs].
    + destruct IH as [IH|[d [Hd Hsd]]].
      * left. now constructor.
      * right. exists d. split; [now right | exact Hsd].
    + right. exists c. split; [now left | exact Hs].
Qed.

(** X1. On a Python string (code points up to U+10FFFF), [hash_password]
    raises [UnicodeEncodeError] exactly when the string holds a surrogate
    code point; on every other string it returns a fingerprint. *)
Theorem hash_password_raises_iff_surrogate p :
  Forall (fun c => c <= 0x10FFFF) p ->
  (hash_password p = Raise UnicodeEncodeError <->
   exists c, In c p /\ 0xD800 <= c <= 0xDFFF).
Proof.
  intro Hrange. split.
  - intro Hraise.
    destruct (encodable_or_surrogate p Hrange) as [He|Hs]; [|exact Hs].
    destruct (hash_password_returns p He) as [h Hh].
    rewrite Hh in Hraise. discriminate Hraise.
  - intros [c [Hin Hs]]. apply hash_password_raises. intro He.
    pose proof (proj1 (Forall_forall _ _) He c Hin) as Hsc. cbv beta in Hsc.
    rewrite (surrogate_not_scalar c Hs) in Hsc. discriminate Hsc.
Qed.

(** X3. When the password cannot be encoded, [update_password_data] raises
    [UnicodeEncodeError] after it has stored the clock reading: last-changed
    is overwritten and the history is left as it was. *)
Theorem update_password_data_raise_effect t p s :
  ~ encodable p ->
  update_password_data t p s =
  (Raise UnicodeEncodeError,
   {| last_password_changed := Some t;
      password_history := password_history s |}).
Proof.
  intro H. apply update_password_data_raises, hash_password_raises, H.
Qed.

(** ** The clock *)

Lemma SFltb_negative_result sx mx ex lx :
  sx = true ->
  SFltb (Prim2SF (float_of_int PASSWORD_EXPIRATION_DAYS))
        (binary_round_aux prec emax sx mx ex lx) = false.
Proof.
  intros ->. unfold binary_round_aux.
  destruct (shr_fexp prec emax mx ex lx) as [mrs' e'].
  destruct (shr_fexp prec emax _ e' loc_Exact) as [mrs'' e''].
  destruct (shr_m mrs'') as [|m|m]; [reflexivity| |reflexivity].
  destruct (e'' <=? emax - prec)%Z; reflexivity.
Qed.

Lemma not_expired_without_elapsed_time now last :
  (0 <? now - last)%float = false ->
  (float_of_int PASSWORD_EXPIRATION_DAYS <? days_since_change now last)%float
  = false.
Proof.
  unfold days_since_change. rewrite !ltb_spec, div_spec.
  destruct (Prim2SF (now - last)) as [sg|sg| |sg m e]; intro H.
  - destruct sg; reflexivity.
  - destruct sg; [reflexivity | discriminate H].
  - reflexivity.
  - destruct sg; [|discriminate H].
    change (Prim2SF (float_of_int (24 * 3600)))
      with (S754_finite false 5937362789990400 (-36)).
    unfold SF64div, SFdiv.
    destruct (SFdiv_core_binary prec emax (Z.pos m) e
                (Z.pos 5937362789990400) (-36)) as [[mz ez] lz].
    now apply SFltb_negative_result.
Qed.

(** X7. When the difference between the clock reading and last-changed, as
    the code computes it, is not positive (the clock has not advanced, or
    has been set back), [is_password_expired] returns false. *)
Theorem not_expired_when_clock_not_advanced now last s :
  last_password_changed s = Some last ->
  (0 <? now - last)%float = false ->
  is_password_expired now s = (Return false, s).
Proof.
  intros Hlast Hd. unfold is_password_expired, bind, get, ret.
  rewrite Hlast. now rewrite not_expired_without_elapsed_time.
Qed.

(** ** The strength checker *)

Section StrengthMore.
Context {ucd : UnicodeData}.

Lemma existsb_Permutation {A} (f : A -> bool) (l l' : list A) :
  Permutation l l' -> existsb f l = existsb f l'.
Proof.
  intro H. apply eq_true_iff_eq. rewrite !existsb_exists.
  split; intros [x [Hin Hx]]; exists x; split; trivial.
  - now apply (Permutation_in _ H).
  - now apply (Permutation_in _ (Permutation_sym H)).
Qed.

Lemma satisfies_Permutation p q r :
  Permutation p q -> satisfies p r = satisfies q r.
Proof.
  intro H. destruct r; cbn [satisfies];
    try (now apply existsb_Permutation).
  now rewrite (Permutation_length H).
Qed.

(** X8. The verdict does not depend on the order of the characters: two
    passwords that are permutations of each other get the same result. *)
Theorem check_password_strength_Permutation p q s :
  Permutation p q ->
  check_password_strength p s = check_password_strength q s.
Proof.
  intro H. rewrite !check_password_strength_eq.
  unfold expected_issues, all_rules. cbn [forallb filter].
  now rewrite !(satisfies_Permutation p q _ H).
Qed.

Lemma satisfies_incl p q r :
  incl p q -> (length p <= length q)%nat ->
  satisfies p r = true -> satisfies q r = true.
Proof.
  intros Hincl Hlen. destruct r; cbn [satisfies].
  - rewrite !Nat.leb_le. lia.
  - rewrite !existsb_exists. intros [c [Hc H]]. exists c. auto.
  - rewrite !existsb_exists. intros [c [Hc H]]. exists c. auto.
  - rewrite !existsb_exists. intros [c [Hc H]]. exists c. auto.
  - rewrite !existsb_exists. intros [c [Hc H]]. exists c. auto.
Qed.

(** X9. A password that is at least as long as another and holds all its
    characters has no issue the other does not have; if the other is strong,
    so is it. In particular, adding characters to a password never makes it
    weaker. *)
Theorem richer_password_has_no_new_issue p q s :
  incl p q -> (length p <= length q)%nat ->
  exists is_strong issues is_strong' issues',
    check_password_strength p s = (Return (is_strong, issues), s) /\
    check_password_strength q s = (Return (is_strong', issues'), s) /\
    incl issues' issues /\
    (is_strong = true -> is_strong' = true).
Proof.
  intros Hincl Hlen.
  exists (forallb (satisfies p) all_rules), (expected_issues p),
         (forallb (satisfies q) all_rules), (expected_issues q).
  split; [apply check_password_strength_eq|].
  split; [apply check_password_strength_eq|].
  split.
  - intros m Hm. unfold expected_issues in *.
    apply in_map_iff in Hm. destruct Hm as [r [<- Hr]].
    apply in_map, filter_In. apply filter_In in Hr.
    destruct Hr as [Hin Hr]. split; [exact Hin|].
    apply negb_true_iff. apply negb_true_iff in Hr.
    destruct (satisfies p r) eqn:E; [|reflexivity].
    rewrite (satisfies_incl p q r Hincl Hlen E) in Hr. discriminate Hr.
  - intro Hp. apply forallb_forall. intros r Hr.
    apply (satisfies_incl p q r Hincl Hlen).
    exact (proj1 (forallb_forall _ _) Hp r Hr).
Qed.

(** X10. The result is [(True, [])] exactly when the password has at least
    14 characters, a character in A-Z, one in a-z, a decimal digit and a
    character of the special set. *)
Theorem strong_iff_all_rules p s :
  fst (check_password_strength p s)
  = Return (true, [])
  <->
  (14 <= length p)%nat /\ contains_uppercase p /\ contains_lowercase p /\
  contains_digit p /\ contains_special p.
Proof.
  rewrite check_password_strength_eq. cbn [fst].
  rewrite <- satisfies_length, <- satisfies_uppercase, <- satisfies_lowercase,
    <- satisfies_digit, <- satisfies_special.
  unfold expected_issues, all_rules. cbn [forallb filter].
  destruct (satisfies p Length), (satisfies p Uppercase),
    (satisfies p Lowercase), (satisfies p Digit), (satisfies p Special);
    cbn; split; intro H; try reflexivity; try discriminate H;
    try (repeat split; reflexivity);
    destruct H as (H1 & H2 & H3 & H4 & H5); discriminate.
Qed.

End StrengthMore.

(** ** The window of the history *)

Lemma lastn_In_last {A} k (l r : list A) x :
  (length r < k)%nat -> In x (lastn k (l ++ x :: r)).
Proof.
  intro H. unfold lastn. rewrite length_app. cbn [length].
  destruct (Nat.le_gt_cases (length l + S (length r)) k) as [Hle|Hgt].
  - replace (length l + S (length r) - k)%nat with 0%nat by lia.
    apply in_or_app. right. now left.
  - rewrite skipn_app.
    replace (length l + S (length r) - k - length l)%nat with 0%nat by lia.
    apply in_or_app. right. now left.
Qed.

Lemma fingerprints_length_le ps : (length (fingerprints ps) <= length ps)%nat.
Proof.
  induction ps as [|p rest IH]; simpl; [lia|].
  destruct (hash_password p); simpl; lia.
Qed.

(** X4. A recorded password stays detected during the next 23 changes,
    whatever they are: on a record whose history is within its bound, after
    recording an encodable password and then at most 23 further changes,
    [is_password_reused] on it returns true. *)
Theorem reused_during_next_23_changes t p s rest :
  (length (password_history s) <= PASSWORD_HISTORY_LIMIT)%nat ->
  encodable p ->
  (length rest < PASSWORD_HISTORY_LIMIT)%nat ->
  let s' := record_changes ((t, p) :: rest) s in
  is_password_reused p s' = (Return true, s').
Proof.
  intros Hs Hp Hrest s'.
  destruct (hash_password_returns p Hp) as [h E].
  rewrite (is_password_reused_returns p s' h E). f_equal. f_equal.
  apply contains_In. unfold s'.
  rewrite record_changes_history by exact Hs.
  cbn [map snd fingerprints]. rewrite E.
  apply lastn_In_last.
  apply Nat.le_lt_trans with (2 := Hrest).
  rewrite <- (length_map snd rest). apply fingerprints_length_le.
Qed.

(** X5. From any record whose history is within its bound: after recording
    an encodable password and then 24 further encodable passwords, none
    with its fingerprint, [is_password_reused] on it returns false, even if
    the history held its fingerprint before. *)
Theorem evicted_after_24_changes t p s rest :
  (length (password_history s) <= PASSWORD_HISTORY_LIMIT)%nat ->
  length rest = PASSWORD_HISTORY_LIMIT ->
  Forall encodable (p :: map snd rest) ->
  (forall q, In q (map snd rest) -> hash_password q <> hash_password p) ->
  let s' := record_changes ((t, p) :: rest) s in
  is_password_reused p s' = (Return false, s').
Proof.
  intros Hs Hlen Henc Hdistinct s'.
  inversion Henc as [|? ? Hp Hrest]; subst.
  destruct (hash_password_returns p Hp) as [h E].
  rewrite (is_password_reused_returns p s' h E). f_equal. f_equal.
  destruct (deque.contains h (password_history s')) eqn:C; [|reflexivity].
  exfalso. apply contains_In in C. unfold s' in C.
  rewrite record_changes_history in C by exact Hs.
  assert (F : fingerprints (map snd ((t, p) :: rest)) =
              h :: fingerprints (map snd rest)).
  { cbn [map snd fingerprints]. now rewrite E. }
  rewrite F in C. unfold lastn in C.
  rewrite length_app in C. cbn [length] in C.
  rewrite fingerprints_encodable in C by exact Hrest.
  rewrite length_map, Hlen in C.
  rewrite skipn_app in C.
  replace (length (password_history s) + S PASSWORD_HISTORY_LIMIT
           - PASSWORD_HISTORY_LIMIT - length (password_history s))%nat
    with 1%nat in C by lia.
  rewrite skipn_all2 in C by lia.
  cbn [app skipn] in C.
  apply fingerprints_In in C. destruct C as [q [Hq Eq]].
  apply (Hdistinct q Hq). now rewrite Eq, E.
Qed.

(** X6. After [n] changes with encodable passwords from the initial record
    the history holds [min n 24] fingerprints: repeated passwords are not
    merged, each change takes a place. *)
Theorem history_length_after_changes changes :
  Forall encodable (map snd changes) ->
  length (password_history (record_changes changes user_password_data)) =
  Nat.min (length changes) PASSWORD_HISTORY_LIMIT.
Proof.
  intro H. rewrite record_changes_history by (simpl; lia).
  cbn [user_password_data password_history deque.new app].
  unfold lastn. rewrite length_skipn, fingerprints_encodable by exact H.
  rewrite length_map. lia.
Qed.

(** ** The banner and the script *)

Lemma ascii_check text :
  forallb (fun c => c <? 128) text = true -> ascii_text text.
Proof.
  intro H. apply Forall_forall. intros c Hc.
  apply N.ltb_lt. exact (proj1 (forallb_forall _ _) H c Hc).
Qed.

Lemma ascii_app a b : ascii_text a -> ascii_text b -> ascii_text (a ++ b).
Proof. intros Ha Hb. apply Forall_app. now split. Qed.

Lemma ascii_border n : ascii_text (repeat 42 n).
Proof.
  apply Forall_forall. intros c Hc. apply repeat_spec in Hc. subst c.
  reflexivity.
Qed.

Lemma ascii_framed message :
  ascii_text message -> ascii_text (lit "* " ++ message ++ lit " *").
Proof.
  intro H. repeat apply ascii_app; trivial; apply ascii_check; reflexivity.
Qed.

Lemma ascii_rule_message r : ascii_text (rule_message r).
Proof. destruct r; apply ascii_check; reflexivity. Qed.

Section ScriptFacts.
Context {console : Console}.

Lemma print_accepted text s out :
  console_accepts text = true ->
  print text (s, out) = (Return tt, (s, out ++ [text])).
Proof. intro H. unfold print. now rewrite H. Qed.

Lemma print_rejected text s out :
  console_accepts text = false ->
  print text (s, out) = (Raise UnicodeEncodeError, (s, out)).
Proof. intro H. unfold print. now rewrite H. Qed.

Lemma create_banner_accepted message s out :
  console_accepts (lit "* " ++ message ++ lit " *") = true ->
  create_banner message (s, out) =
  (Return tt, (s, out ++ banner_lines message)).
Proof.
  intro H. unfold create_banner, sbind, banner_lines.
  rewrite print_accepted by apply console_accepts_ascii, ascii_border.
  rewrite print_accepted by exact H.
  rewrite print_accepted by apply console_accepts_ascii, ascii_border.
  now rewrite <- !app_assoc.
Qed.

Lemma create_banner_run message s out :
  ascii_text message ->
  create_banner message (s, out) =
  (Return tt, (s, out ++ banner_lines message)).
Proof.
  intro H. apply create_banner_accepted, console_accepts_ascii, ascii_framed, H.
Qed.

Lemma print_issues_run issues : forall s out,
  Forall ascii_text issues ->
  print_issues issues (s, out) =
  (Return tt, (s, out ++ map (app (lit "- ")) issues)).
Proof.
  induction issues as [|i rest IH]; intros s out H; cbn [print_issues map].
  - unfold sret. now rewrite app_nil_r.
  - inversion H as [|? ? Hi Hrest]; subst. unfold sbind.
    rewrite print_accepted.
    + rewrite IH by exact Hrest. now rewrite <- app_assoc.
    + apply console_accepts_ascii, ascii_app; [|exact Hi].
      apply ascii_check. reflexivity.
Qed.

Lemma call_returns {A B} (c : Py A) (k : A -> Script B) s out r s' :
  c s = (Return r, s') -> sbind (call c) k (s, out) = k r (s', out).
Proof. intro H. unfold sbind, call. cbn [fst snd]. now rewrite H. Qed.

Lemma call_raises {A B} (c : Py A) (k : A -> Script B) s out e s' :
  c s = (Raise e, s') -> sbind (call c) k (s, out) = (Raise e, (s', out)).
Proof. intro H. unfold sbind, call. cbn [fst snd]. now rewrite H. Qed.

Lemma banner_step {B} message (k : unit -> Script B) s out :
  ascii_text message ->
  sbind (create_banner message) k (s, out) =
  k tt (s, out ++ banner_lines message).
Proof. intro H. unfold sbind. now rewrite create_banner_run. Qed.

(** X11. [create_banner] prints a rectangle or stops after the top border.
    The border, of asterisks only, and the middle text, the message between
    an asterisk and a space on either side, both have four characters more
    than the message. When the stream accepts the middle text, the call
    prints border, middle text and border and returns, with the record
    unchanged; when it does not, the call has printed the top border alone
    and raises [UnicodeEncodeError]. *)
Theorem create_banner_rectangle message s out :
  let border := repeat 42 (length message + 4) in
  let middle := lit "* " ++ message ++ lit " *" in
  length border = (length message + 4)%nat /\
  length middle = (length message + 4)%nat /\
  (console_accepts middle = true ->
   create_banner message (s, out) =
   (Return tt, (s, out ++ [border; middle; border]))) /\
  (console_accepts middle = false ->
   create_banner message (s, out) =
   (Raise UnicodeEncodeError, (s, out ++ [border]))).
Proof.
  cbv zeta. split; [apply repeat_length|].
  split. { rewrite !length_app. cbn. lia. }
  split.
  - apply create_banner_accepted.
  - intro H. unfold create_banner, sbind.
    rewrite print_accepted by apply console_accepts_ascii, ascii_border.
    now rewrite print_rejected by exact H.
Qed.

End ScriptFacts.

Ltac ascii := first [ assumption | apply ascii_check; reflexivity ].

Section DemonstrationFacts.
Context {ucd : UnicodeData} {console : Console}.

Lemma expected_issues_ascii p : Forall ascii_text (expected_issues p).
Proof.
  unfold expected_issues. apply Forall_forall. intros m Hm.
  apply in_map_iff in Hm. destruct Hm as [r [<- _]]. apply ascii_rule_message.
Qed.

Lemma strength_step p (k : Script unit) s out :
  sbind (call (check_password_strength p))
        (fun r => sbind (if fst r then create_banner banner_strong
                         else sbind (create_banner banner_weak)
                                    (fun _ => print_issues (snd r)))
                        (fun _ => k)) (s, out)
  = k (s, out ++ strength_report p).
Proof.
  rewrite (call_returns _ _ _ _ _ _ (check_password_strength_eq p s)).
  cbn [fst snd]. unfold strength_report.
  destruct (forallb (satisfies p) all_rules).
  - apply banner_step. ascii.
  - unfold sbind at 1. rewrite banner_step by ascii.
    rewrite print_issues_run by apply expected_issues_ascii.
    now rewrite <- app_assoc.
Qed.

Lemma is_password_expired_returns t s :
  exists expired, is_password_expired t s = (Return expired, s).
Proof.
  unfold is_password_expired, bind, get, ret.
  destruct (last_password_changed s); eauto.
Qed.

Lemma expiry_step t s out :
  exists expired,
    sbind (call (is_password_expired t))
          (fun expired : bool =>
             if expired then create_banner banner_expired
             else create_banner banner_valid) (s, out)
    = (Return tt, (s, out ++ expiry_report expired)).
Proof.
  destruct (is_password_expired_returns t s) as [b Hb]. exists b.
  rewrite (call_returns _ _ _ _ _ _ Hb). unfold expiry_report.
  destruct b; apply create_banner_run; ascii.
Qed.

(** X12. The script body, for an encodable password on any record, does not
    raise and keeps what was printed before; afterwards
    [is_password_reused] on the password returns true. The record is
    unchanged if the password was already in the history, and is the record
    [update_password_data] leaves otherwise, whatever the strength check
    said: a weak password is recorded too. *)
Theorem main_body_records_password p t_update t_expired s out :
  encodable p ->
  exists s' out',
    main_body p t_update t_expired (s, out) = (Return tt, (s', out ++ out')) /\
    is_password_reused p s' = (Return true, s') /\
    (fst (is_password_reused p s) = Return true -> s' = s) /\
    (fst (is_password_reused p s) = Return false ->
     s' = snd (update_password_data t_update p s)).
Proof.
  intro Hp. destruct (hash_password_returns p Hp) as [h E].
  unfold main_body. rewrite strength_step.
  rewrite (call_returns _ _ _ _ _ _ (is_password_reused_returns p s h E)).
  rewrite (is_password_reused_returns p s h E). cbn [fst].
  destruct (deque.contains h (password_history s)) eqn:C.
  - rewrite banner_step by ascii.
    destruct (expiry_step t_expired s
                ((out ++ strength_report p) ++ banner_lines banner_reused))
      as [b Hb].
    exists s. eexists. split.
    { etransitivity; [exact Hb|]. rewrite <- !app_assoc. reflexivity. }
    split. { rewrite (is_password_reused_returns p s h E). now rewrite C. }
    split; [reflexivity|]. intro H. discriminate H.
  - unfold sbind at 1.
    rewrite (call_returns _ _ _ _ _ _
               (update_password_data_returns t_update p s h E)).
    rewrite create_banner_run by ascii.
    match goal with |- context [sbind _ _ (?s1, ?o1)] =>
      destruct (expiry_step t_expired s1 o1) as [b Hb] end.
    eexists. eexists. split.
    { etransitivity; [exact Hb|]. rewrite <- !app_assoc. reflexivity. }
    split.
    { rewrite (is_password_reused_returns p _ h E). cbn [password_history].
      f_equal. f_equal. apply contains_In, append_In.
      unfold PASSWORD_HISTORY_LIMIT. lia. }
    split; [intro H; discriminate H|].
    intros _. rewrite (update_password_data_returns t_update p s h E).
    reflexivity.
Qed.

(** X13. The script body, for a password that cannot be encoded, prints the
    strength report and then raises [UnicodeEncodeError] at the reuse check,
    with the record untouched. *)
Theorem main_body_unencodable p t_update t_expired s out :
  ~ encodable p ->
  main_body p t_update t_expired (s, out) =
  (Raise UnicodeEncodeError, (s, out ++ strength_report p)).
Proof.
  intro Hp. unfold main_body. rewrite strength_step.
  apply call_raises.
  unfold is_password_reused, bind, lift.
  now rewrite (hash_password_raises p Hp).
Qed.

Lemma demo_password_satisfies r :
  satisfies (lit "StrongPassw0rd!") r = true.
Proof.
  destruct r; try reflexivity.
  apply satisfies_digit. apply (ascii_digit_contains_digit _ 48).
  - vm_compute. tauto.
  - lia.
Qed.

(** X14. The script as the source runs it, on the initial record and for
    every pair of clock readings and every Unicode table: it prints the
    banner for a strong password, the banner for an updated password and
    one expiration banner chosen by the elapsed days, and leaves a record
    with the update's clock reading and the fingerprint of the password as
    its only history entry. *)
Theorem main_run t_update t_expired :
  main t_update t_expired (user_password_data, []) =
  (Return tt,
   ({| last_password_changed := Some t_update;
       password_history :=
         [lit "613264468d337ec48cdc4344d1cc0eb32cf8f1c92b288488a33c8226cee6052d"] |},
    banner_lines banner_strong ++ banner_lines banner_updated ++
    expiry_report
      (float_of_int PASSWORD_EXPIRATION_DAYS
         <? days_since_change t_expired t_update)%float)).
Proof.
  unfold main, main_body. rewrite strength_step.
  assert (E : hash_password (lit "StrongPassw0rd!") =
              Return (lit "613264468d337ec48cdc4344d1cc0eb32cf8f1c92b288488a33c8226cee6052d"))
    by (vm_compute; reflexivity).
  rewrite (call_returns _ _ _ _ _ _ (is_password_reused_returns _ _ _ E)).
  cbn [user_password_data password_history deque.new deque.contains existsb].
  unfold sbind at 1.
  rewrite (call_returns _ _ _ _ _ _ (update_password_data_returns _ _ _ _ E)).
  rewrite create_banner_run by ascii.
  assert (X : forall s, last_password_changed s = Some t_update ->
            is_password_expired t_expired s =
            (Return (float_of_int PASSWORD_EXPIRATION_DAYS
                       <? days_since_change t_expired t_update)%float, s)).
  { intros s Hs. unfold is_password_expired, bind, get, ret. now rewrite Hs. }
  erewrite call_returns by (apply X; reflexivity).
  unfold strength_report, all_rules. cbn [forallb].
  rewrite !demo_password_satisfies. cbn [andb app].
  unfold expiry_report.
  destruct (float_of_int PASSWORD_EXPIRATION_DAYS
              <? days_since_change t_expired t_update)%float;
    rewrite create_banner_run by ascii; rewrite <- !app_assoc; reflexivity.
Qed.

End DemonstrationFacts.

(** ** The further properties at concrete inputs *)

Lemma lone_surrogate_not_encodable : ~ encodable lone_surrogate.
Proof.
  intro H. inversion H as [|c rest Hc Hrest]. discriminate Hc.
Defined.

(** X1 at the lone surrogate. *)
Lemma hash_password_raises_iff_surrogate_witness :
  hash_password lone_surrogate = Raise UnicodeEncodeError <->
  exists c, In c lone_surrogate /\ 0xD800 <= c <= 0xDFFF.
Proof.
  apply hash_password_raises_iff_surrogate.
  apply Forall_cons; [vm_compute; discriminate | apply Forall_nil].
Defined.

(** X2 at the fingerprint of the script's password. *)
Lemma hash_password_format_witness :
  length (lit "613264468d337ec48cdc4344d1cc0eb32cf8f1c92b288488a33c8226cee6052d")
  = 64%nat /\
  Forall is_hex_char
    (lit "613264468d337ec48cdc4344d1cc0eb32cf8f1c92b288488a33c8226cee6052d").
Proof.
  apply (hash_password_format (lit "StrongPassw0rd!")).
  vm_compute. reflexivity.
Defined.

(** X3 at the lone surrogate, on the initial record. *)
Lemma update_password_data_raise_effect_witness :
  update_password_data (sample_clock 1) lone_surrogate user_password_data =
  (Raise UnicodeEncodeError,
   {| last_password_changed := Some (sample_clock 1);
      password_history := password_history user_password_data |}).
Proof.
  apply update_password_data_raise_effect, lone_surrogate_not_encodable.
Defined.

(** X7 with the clock set back by a minute. *)
Lemma not_expired_when_clock_not_advanced_witness :
  is_password_expired (sample_clock 1)
    {| last_password_changed := Some (sample_clock 2);
       password_history := [] |} =
  (Return false,
   {| last_password_changed := Some (sample_clock 2);
      password_history := [] |}).
Proof.
  apply (not_expired_when_clock_not_advanced _ (sample_clock 2));
    reflexivity.
Defined.

(** X8 at two passwords that differ by a swap. *)
Lemma check_password_strength_Permutation_witness :
  check_password_strength (ucd := sample_unicode)
    (lit "Passw0rd!") user_password_data =
  check_password_strength (ucd := sample_unicode)
    (lit "aPssw0rd!") user_password_data.
Proof.
  apply (check_password_strength_Permutation (ucd := sample_unicode)).
  apply perm_swap.
Defined.

(** X9 at a password and a longer one with the same characters and a digit. *)
Lemma richer_password_has_no_new_issue_witness :
  exists is_strong issues is_strong' issues',
    check_password_strength (ucd := sample_unicode) (lit "abc")
      user_password_data = (Return (is_strong, issues), user_password_data) /\
    check_password_strength (ucd := sample_unicode) (lit "cab1")
      user_password_data = (Return (is_strong', issues'), user_password_data) /\
    incl issues' issues /\
    (is_strong = true -> is_strong' = true).
Proof.
  apply (richer_password_has_no_new_issue (ucd := sample_unicode)).
  - intros c Hc. vm_compute in Hc. vm_compute. tauto.
  - vm_compute. lia.
Defined.

(** X4 at the first sample password followed by 23 others. *)
Lemma reused_during_next_23_changes_witness :
  is_password_reused (numbered_password 1)
    (record_changes (firstn 24 sample_changes) user_password_data) =
  (Return true, record_changes (firstn 24 sample_changes) user_password_data).
Proof.
  apply (reused_during_next_23_changes (sample_clock 1) (numbered_password 1)
           user_password_data (firstn 23 (tl sample_changes))).
  - vm_compute. lia.
  - apply encodable_check. reflexivity.
  - vm_compute. lia.
Defined.

(** X5 at the sample passwords, on a record that holds a fingerprint. *)
Lemma evicted_after_24_changes_witness :
  is_password_reused (numbered_password 1)
    (record_changes sample_changes used_record) =
  (Return false, record_changes sample_changes used_record).
Proof.
  apply (evicted_after_24_changes (sample_clock 1) (numbered_password 1)
           used_record (tl sample_changes)).
  - vm_compute. lia.
  - reflexivity.
  - cbv [sample_changes map seq tl snd].
    repeat (apply Forall_cons; [apply encodable_check; reflexivity|]).
    apply Forall_nil.
  - intros q Hq.
    assert (F : Forall (fun q => hash_password q <>
                                 hash_password (numbered_password 1))
                       (map snd (tl sample_changes))).
    { cbv [sample_changes map seq tl snd].
      repeat (apply Forall_cons; [vm_compute; discriminate|]).
      apply Forall_nil. }
    exact (proj1 (Forall_forall _ _) F q Hq).
Defined.

(** X6 at the twenty-five sample changes. *)
Lemma history_length_after_changes_witness :
  length (password_history (record_changes sample_changes user_password_data))
  = Nat.min (length sample_changes) PASSWORD_HISTORY_LIMIT.
Proof.
  apply history_length_after_changes.
  cbv [sample_changes map seq snd].
  repeat (apply Forall_cons; [apply encodable_check; reflexivity|]).
  apply Forall_nil.
Defined.

(** X12 at a weak password. *)
Lemma main_body_records_password_witness :
  exists s' out',
    main_body (ucd := sample_unicode) (console := utf8_console) (lit "weak")
      (sample_clock 1) (sample_clock 2) (user_password_data, []) =
    (Return tt, (s', [] ++ out')) /\
    is_password_reused (lit "weak") s' = (Return true, s') /\
    (fst (is_password_reused (lit "weak") user_password_data) = Return true ->
     s' = user_password_data) /\
    (fst (is_password_reused (lit "weak") user_password_data) = Return false ->
     s' = snd (update_password_data (sample_clock 1) (lit "weak")
                 user_password_data)).
Proof.
  apply (main_body_records_password (ucd := sample_unicode)
           (console := utf8_console)).
  apply encodable_check. reflexivity.
Defined.

(** X13 at the lone surrogate. *)
Lemma main_body_unencodable_witness :
  main_body (ucd := sample_unicode) (console := utf8_console) lone_surrogate
    (sample_clock 1) (sample_clock 2) (user_password_data, []) =
  (Raise UnicodeEncodeError,
   (user_password_data,
    [] ++ strength_report (ucd := sample_unicode) lone_surrogate)).
Proof.
  apply (main_body_unencodable (ucd := sample_unicode)
           (console := utf8_console)).
  apply lone_surrogate_not_encodable.
Defined.

(** ** Distinct passwords with one fingerprint *)

Lemma flat_map_cons_length (cs : list codepoint) (ws : list str) :
  length (flat_map (fun c => map (cons c) ws) cs) = (length cs * length ws)%nat.
Proof.
  induction cs as [|c cs IH]; simpl; [reflexivity|].
  now rewrite length_app, length_map, IH.
Qed.

Lemma hex_words_length_S n :
  length (hex_words (S n)) = (16 * length (hex_words n))%nat.
Proof. cbn [hex_words]. apply flat_map_cons_length. Qed.

Lemma hex_words_nonempty n : (1 <= length (hex_words n))%nat.
Proof.
  induction n as [|n IH]; [simpl; lia|].
  rewrite hex_words_length_S. lia.
Qed.

Lemma hex_words_In n : forall w,
  In w (hex_words n) <->
  length w = n /\ Forall (fun c => In c hex_chars) w.
Proof.
  induction n as [|n IH]; intro w; cbn [hex_words].
  - split.
    + intros [<-|[]]. split; [reflexivity | constructor].
    + intros [Hlen _]. destruct w; [now left | discriminate Hlen].
  - rewrite in_flat_map. split.
    + intros [c [Hc Hw]]. apply in_map_iff in Hw.
      destruct Hw as [w' [<- Hw']]. apply IH in Hw'. destruct Hw' as [Hl Hf].
      split; [simpl; now rewrite Hl | now constructor].
    + intros [Hlen Hf]. destruct w as [|c w']; [discriminate Hlen|].
      inversion Hf as [|? ? Hc Hw']; subst. exists c. split; [exact Hc|].
      apply in_map, IH. split; [now injection Hlen | exact Hw'].
Qed.

Lemma NoDup_flat_map_cons (cs : list codepoint) (ws : list str) :
  NoDup cs -> NoDup ws -> NoDup (flat_map (fun c => map (cons c) ws) cs).
Proof.
  intros Hcs Hws. induction Hcs as [|c cs Hc Hcs IH]; cbn [flat_map].
  - constructor.
  - apply NoDup_app.
    + apply NoDup_map_injective; [|exact Hws].
      intros x y H. now injection H.
    + exact IH.
    + intros w Hw Hw'. apply in_map_iff in Hw. destruct Hw as [w1 [<- _]].
      apply in_flat_map in Hw'. destruct Hw' as [c' [Hc' Hw']].
      apply in_map_iff in Hw'. destruct Hw' as [w2 [Heq _]].
      injection Heq as -> _. contradiction.
Qed.

Lemma hex_chars_NoDup : NoDup hex_chars.
Proof.
  change hex_chars with (nodup N.eq_dec hex_chars). apply NoDup_nodup.
Qed.

Lemma hex_words_NoDup n : NoDup (hex_words n).
Proof.
  induction n as [|n IH]; cbn [hex_words].
  - repeat constructor. simpl. tauto.
  - apply NoDup_flat_map_cons; [apply hex_chars_NoDup | exact IH].
Qed.

Lemma hex_char_scalar c : In c hex_chars -> is_scalar_value c = true.
Proof.
  intro H. vm_compute in H.
  repeat (destruct H as [<-|H]; [reflexivity|]). contradiction.
Qed.

Lemma hex_word_encodable n w : In w (hex_words n) -> encodable w.
Proof.
  intro H. apply hex_words_In in H. destruct H as [_ H].
  apply Forall_impl with (2 := H). exact hex_char_scalar.
Qed.

Lemma is_hex_char_In c : is_hex_char c -> In c hex_chars.
Proof.
  intro H.
  assert (E : c = 48 \/ c = 49 \/ c = 50 \/ c = 51 \/ c = 52 \/ c = 53 \/
              c = 54 \/ c = 55 \/ c = 56 \/ c = 57 \/ c = 97 \/ c = 98 \/
              c = 99 \/ c = 100 \/ c = 101 \/ c = 102)
    by (unfold is_hex_char in H; lia).
  vm_compute.
  repeat (destruct E as [->|E]; [tauto|]). subst c. tauto.
Qed.

Lemma fingerprint_hex_word p :
  encodable p -> In (fingerprint_of p) (hex_words 64).
Proof.
  intro Hp. unfold fingerprint_of, hash_password.
  apply str_encode_some in Hp. destruct Hp as [data ->].
  apply hex_words_In. split.
  - unfold hashlib.hexdigest.
    rewrite (flat_map_length_const _ 2) by reflexivity.
    now rewrite sha256_length.
  - apply Forall_impl with (P := is_hex_char); [exact is_hex_char_In|].
    apply hexdigest_chars, sha256_bytes.
Qed.

(** Among the elements of a list without repetition, a function is
    injective or two of them collide. *)
Lemma NoDup_map_or_collision {A B} (eqB : forall x y : B, {x = y} + {x <> y})
      (f : A -> B) (l : list A) :
  NoDup l ->
  NoDup (map f l) \/
  exists x y, In x l /\ In y l /\ x <> y /\ f x = f y.
Proof.
  induction 1 as [|x l Hx Hl IH]; cbn [map].
  - left. constructor.
  - destruct IH as [IH|[a [b [Ha [Hb [Hab Hf]]]]]].
    + destruct (in_dec eqB (f x) (map f l)) as [Hin|Hnin].
      * right. apply in_map_iff in Hin. destruct Hin as [y [Hy Hyl]].
        exists x, y. split; [now left|]. split; [now right|].
        split; [|now symmetry]. intros ->. contradiction.
      * left. now constructor.
    + right. exists a, b. split; [now right|]. split; [now right|]. now split.
Qed.

(** SHA-256 is not injective on the strings of sixty-five hexadecimal
    characters: there are sixteen times as many of them as there are
    digests. *)
Lemma fingerprint_collision :
  exists p q,
    p <> q /\ length p = 65%nat /\ length q = 65%nat /\
    encodable p /\ encodable q /\ hash_password p = hash_password q.
Proof.
  destruct (NoDup_map_or_collision (list_eq_dec N.eq_dec) fingerprint_of
              (hex_words 65) (hex_words_NoDup 65)) as [Hinj|Hcol].
  - exfalso.
    assert (Hincl : incl (map fingerprint_of (hex_words 65)) (hex_words 64)).
    { intros h Hh. apply in_map_iff in Hh. destruct Hh as [p [<- Hp]].
      apply fingerprint_hex_word. now apply (hex_word_encodable 65). }
    pose proof (NoDup_incl_length Hinj Hincl) as Hle.
    rewrite length_map, hex_words_length_S in Hle.
    pose proof (hex_words_nonempty 64) as Hpos.
    assert (X : forall a : nat, (16 * a <= a)%nat -> (1 <= a)%nat -> False)
      by (intros; lia).
    exact (X _ Hle Hpos).
  - destruct Hcol as [p [q [Hp [Hq [Hpq Hf]]]]].
    destruct (proj1 (hex_words_In 65 p) Hp) as [Lp _].
    destruct (proj1 (hex_words_In 65 q) Hq) as [Lq _].
    exists p, q. split; [exact Hpq|].
    split; [exact Lp|]. split; [exact Lq|].
    pose proof (hex_word_encodable 65 p Hp) as Ep.
    pose proof (hex_word_encodable 65 q Hq) as Eq.
    split; [exact Ep|]. split; [exact Eq|].
    destruct (hash_password_returns p Ep) as [hp Hhp].
    destruct (hash_password_returns q Eq) as [hq Hhq].
    unfold fingerprint_of in Hf. rewrite Hhp, Hhq in Hf. subst hq.
    now rewrite Hhp, Hhq.
Qed.

Lemma sample_rest_facts :
  let rest := firstn 23 sample_changes in
  length rest = 23%nat /\
  NoDup (map snd rest) /\
  Forall encodable (map snd rest) /\
  Forall (fun r => length r = 16%nat) (map snd rest).
Proof.
  cbv zeta. split; [reflexivity|]. split.
  { apply NoDup_check. vm_compute. reflexivity. }
  split.
  - cbv [sample_changes map seq firstn snd].
    repeat (apply Forall_cons; [apply encodable_check; reflexivity|]).
    apply Forall_nil.
  - cbv [sample_changes map seq firstn snd].
    repeat (apply Forall_cons; [reflexivity|]). apply Forall_nil.
Qed.

Lemma reused_after_collision t p q h rest :
  hash_password p = Return h -> hash_password q = Return h ->
  (length rest < PASSWORD_HISTORY_LIMIT)%nat ->
  is_password_reused p
    (record_changes ((t, p) :: (t, q) :: rest) user_password_data) =
  (Return true,
   record_changes ((t, p) :: (t, q) :: rest) user_password_data).
Proof.
  intros Hp Hq Hrest.
  rewrite (is_password_reused_returns p _ h Hp). f_equal. f_equal.
  apply contains_In.
  rewrite record_changes_history
    by (unfold user_password_data, PASSWORD_HISTORY_LIMIT; simpl; lia).
  cbn [map snd fingerprints user_password_data password_history
       deque.new app].
  rewrite Hp, Hq.
  apply (lastn_In_last _ [h]).
  apply Nat.le_lt_trans with (2 := Hrest).
  rewrite <- (length_map snd rest). apply fingerprints_length_le.
Qed.

(** C4 as stated fails in two ways. First, there are twenty-five distinct
    passwords, all of which UTF-8 can encode, such that after recording
    them in this order into the initial record [is_password_reused] on the
    first returns true: the second has the fingerprint of the first.
    Second, when the first of twenty-five distinct passwords is a lone
    surrogate, [is_password_reused] on it raises instead of returning
    false. *)
Lemma distinct_passwords_counterexample :
  (exists changes first,
     length changes = 25%nat /\
     NoDup (map snd changes) /\
     Forall encodable (map snd changes) /\
     hd_error (map snd changes) = Some first /\
     is_password_reused first (record_changes changes user_password_data) =
     (Return true, record_changes changes user_password_data)) /\
  (length surrogate_changes = 25%nat /\
   NoDup (map snd surrogate_changes) /\
   is_password_reused lone_surrogate
     (record_changes surrogate_changes user_password_data) =
   (Raise UnicodeEncodeError,
    record_changes surrogate_changes user_password_data)).
Proof.
  split.
  - destruct fingerprint_collision as [p [q [Hpq [Lp [Lq [Ep [Eq Hh]]]]]]].
    destruct sample_rest_facts as [Lr [Nr [Er Sr]]].
    destruct (hash_password_returns p Ep) as [h Hp].
    assert (Hq : hash_password q = Return h) by (now rewrite <- Hh).
    exists ((sample_clock 0, p) :: (sample_clock 0, q)
              :: firstn 23 sample_changes), p.
    assert (Out : forall w, length w = 65%nat ->
                  ~ In w (map snd (firstn 23 sample_changes))).
    { intros w Lw Hw.
      pose proof (proj1 (Forall_forall _ _) Sr w Hw) as H16. cbv beta in H16.
      rewrite Lw in H16. discriminate H16. }
    split. { cbn [length]. now rewrite Lr. }
    split.
    { cbn [map snd]. constructor.
      - intros [H|H]; [now apply Hpq | now apply (Out p Lp)].
      - constructor; [now apply Out | exact Nr]. }
    split. { cbn [map snd]. constructor; [exact Ep|]. now constructor. }
    split; [reflexivity|].
    apply (reused_after_collision _ p q h); [exact Hp | exact Hq |].
    rewrite Lr. unfold PASSWORD_HISTORY_LIMIT. lia.
  - split; [reflexivity|]. split; [apply NoDup_check; vm_compute; reflexivity|].
    apply (f_equal (fun o => (o, _))). reflexivity.
Qed.
